(** * Thread reconstruction and segmentation of conversation exports

    Shallow embedding of [src/process_conversations.py]: the segmenter
    [split_segments] and the thread reconstructor [reconstruct_threads].

    Modelling conventions.
    - Timestamps and JSON numbers are modelled as integers ([Z]); the
      Python code works on floats, whose rounding is not modelled.
    - A float NaN time ([float("nan")], from a [create_time] of ["nan"])
      has no counterpart in the model. Python's [<] is not a total order
      once a NaN key is present, and [sorted] may then leave keys out of
      order; the statements about the sorted order are therefore about
      inputs without NaN times. Without NaN, the keys of one call are
      totally ordered, and the integers stand for them order-faithfully.
    - A Python [dict] coming from JSON is modelled as the list of its items
      in iteration order (its keys are distinct).
    - Python's [sorted] is stable, so on totally ordered keys its result is
      determined by the key; it is modelled by a stable insertion sort. *)

From Stdlib Require Import List ZArith QArith String Ascii Bool Lia Permutation Sorted RelationClasses.
From Stdlib Require DecimalPos.
Import ListNotations.
Open Scope Z_scope.

(* ================================================================= *)
(** ** The segmenter: [split_segments] *)

Module Segmenter.

(** A flat message [{role, text, time}]; a missing key reads as [None]
    through [dict.get]. *)
Record message := mkMessage {
  m_role : option string;
  m_text : string;
  m_time : option Z
}.

(** [GAP_SECONDS = 30 * 60] *)
Definition GAP_SECONDS : Z := 30 * 60.

(** The sort key [lambda m: m.get("time") or 0]: an absent time (and a
    time equal to 0, which is falsy) reads as 0. *)
Definition time_key (m : message) : Z :=
  match m_time m with
  | Some t => t
  | None => 0
  end.

(** Stable insertion sort by [time_key]; [x] is placed before the first
    element whose key is not smaller. *)
Fixpoint insert_by_time (x : message) (l : list message) : list message :=
  match l with
  | [] => [x]
  | y :: l' => if time_key x <=? time_key y then x :: y :: l'
               else y :: insert_by_time x l'
  end.

Fixpoint sort_by_time (l : list message) : list message :=
  match l with
  | [] => []
  | x :: l' => insert_by_time x (sort_by_time l')
  end.

(** [prev.get("role") != cur.get("role")] *)
Definition role_change (prev cur : message) : bool :=
  match m_role prev, m_role cur with
  | None, None => false
  | Some a, Some b => negb (String.eqb a b)
  | _, _ => true
  end.

(** The [time_gap] flag: both times known and [cur_time - prev_time > gap]. *)
Definition time_gap (gap : Z) (prev cur : message) : bool :=
  match m_time prev, m_time cur with
  | Some p, Some c => gap <? c - p
  | _, _ => false
  end.

Definition boundary (gap : Z) (prev cur : message) : bool :=
  time_gap gap prev cur || role_change prev cur.

(** The [for prev, cur in zip(messages, messages[1:])] loop, with the
    accumulators [current] and [segments]; at the end [if current:
    segments.append(current)]. *)
Fixpoint scan (gap : Z) (prev : message) (rest : list message)
    (current : list message) (segments : list (list message))
    : list (list message) :=
  match rest with
  | [] => match current with
          | [] => segments
          | _ => segments ++ [current]
          end
  | cur :: rest' =>
      if boundary gap prev cur
      then scan gap cur rest' [cur] (segments ++ [current])
      else scan gap cur rest' (current ++ [cur]) segments
  end.

Definition split_segments (messages : list message) (gap_seconds : Z)
    : list (list message) :=
  match messages with
  | [] => []
  | _ =>
      match sort_by_time messages with
      | [] => []
      | m0 :: ms => scan gap_seconds m0 ms [m0] []
      end
  end.

(** Positions of the concatenated segments at which a segment starts. *)
Definition start_flags (segs : list (list message)) : list bool :=
  List.concat (map (fun s => match s with
                        | [] => []
                        | _ :: t => true :: map (fun _ => false) t
                        end) segs).

(** The boundary flag of each consecutive pair of a list. *)
Fixpoint pair_flags (gap : Z) (l : list message) : list bool :=
  match l with
  | a :: ((b :: _) as t) => boundary gap a b :: pair_flags gap t
  | _ => []
  end.

(** [cur], at position [j] of the sorted list, opens a new segment. *)
Definition starts_segment (segs : list (list message)) (j : nat) : Prop :=
  nth_error (start_flags segs) j = Some true.

(** Both segment positions of the concatenation. *)
Definition same_segment (segs : list (list message)) (j : nat) : Prop :=
  nth_error (start_flags segs) j = Some false.

(** *** Sortedness of the sorted copy *)

Definition key_le (a b : message) : Prop := time_key a <= time_key b.

(** Two neighbours of one segment: in key order and with no boundary. *)
Definition seg_rel (gap : Z) (a b : message) : Prop :=
  key_le a b /\ boundary gap a b = false.

(** *** Segments produced by the scan *)

Definition seg_ok (gap : Z) (s : list message) : Prop :=
  s <> [] /\ Sorted (seg_rel gap) s.

End Segmenter.

(* ================================================================= *)
(** ** The thread reconstructor: [reconstruct_threads] *)

Module Reconstructor.

#[local] Set Warnings "-register-all".

(** JSON values as [json.load] produces them. *)
Inductive JValue : Type :=
| JNull
| JBool (b : bool)
| JNum (n : Z)
| JStr (s : string)
| JArr (l : list JValue)
| JObj (o : list (string * JValue)).

(** The Python exceptions the code can raise; [ValueError] is always
    caught, so it never escapes. *)
Inductive exn := AttributeError | TypeError | OverflowError.

(** The outcome of running Python code: a value, an uncaught exception,
    or the loop bound of the model exhausted. *)
Inductive outcome (A : Type) :=
| Ok (a : A)
| Raise (e : exn)
| OutOfFuel.
Arguments Ok {A} a.
Arguments Raise {A} e.
Arguments OutOfFuel {A}.

Definition bind {A B : Type} (m : outcome A) (k : A -> outcome B) : outcome B :=
  match m with
  | Ok a => k a
  | Raise e => Raise e
  | OutOfFuel => OutOfFuel
  end.

Notation "x <- m ;; k" := (bind m (fun x => k))
  (at level 61, m at next level, right associativity).

(** Python truthiness. *)
Definition truthy (v : JValue) : bool :=
  match v with
  | JNull => false
  | JBool b => b
  | JNum n => negb (Z.eqb n 0)
  | JStr s => negb (String.eqb s EmptyString)
  | JArr l => match l with [] => false | _ => true end
  | JObj o => match o with [] => false | _ => true end
  end.

(** [a or b] *)
Definition py_or (a b : JValue) : JValue := if truthy a then a else b.

Definition is_none (v : JValue) : bool :=
  match v with JNull => true | _ => false end.

Fixpoint assoc (o : list (string * JValue)) (k : string) : option JValue :=
  match o with
  | [] => None
  | (k', v) :: o' => if String.eqb k k' then Some v else assoc o' k
  end.

(** [d.get(k, dflt)]: an [AttributeError] when [d] is not a dict. *)
Definition py_get_default (d : JValue) (k : string) (dflt : JValue) : outcome JValue :=
  match d with
  | JObj o => Ok (match assoc o k with Some v => v | None => dflt end)
  | _ => Raise AttributeError
  end.

(** [d.get(k)] *)
Definition py_get (d : JValue) (k : string) : outcome JValue :=
  py_get_default d k JNull.

(** Iterating a value ([for p in parts]): a list gives its items, a string
    its characters, a dict its keys; numbers and booleans are not
    iterable. *)
Definition py_iter (v : JValue) : outcome (list JValue) :=
  match v with
  | JArr l => Ok l
  | JStr s => Ok (map (fun c => JStr (String c EmptyString)) (list_ascii_of_string s))
  | JObj o => Ok (map (fun kv => JStr (fst kv)) o)
  | _ => Raise TypeError
  end.

Definition string_of_digit (d : nat) : string :=
  String (ascii_of_nat (48 + d)) EmptyString.

Fixpoint string_of_uint (d : Decimal.uint) : string :=
  match d with
  | Decimal.Nil => EmptyString
  | Decimal.D0 d => string_of_digit 0 ++ string_of_uint d
  | Decimal.D1 d => string_of_digit 1 ++ string_of_uint d
  | Decimal.D2 d => string_of_digit 2 ++ string_of_uint d
  | Decimal.D3 d => string_of_digit 3 ++ string_of_uint d
  | Decimal.D4 d => string_of_digit 4 ++ string_of_uint d
  | Decimal.D5 d => string_of_digit 5 ++ string_of_uint d
  | Decimal.D6 d => string_of_digit 6 ++ string_of_uint d
  | Decimal.D7 d => string_of_digit 7 ++ string_of_uint d
  | Decimal.D8 d => string_of_digit 8 ++ string_of_uint d
  | Decimal.D9 d => string_of_digit 9 ++ string_of_uint d
  end%string.

(** [str(n)] of an integer. *)
Definition string_of_Z (n : Z) : string :=
  match Z.to_int n with
  | Decimal.Pos u => string_of_uint u
  | Decimal.Neg u => ("-" ++ string_of_uint u)%string
  end.

(** ["sep".join(l)] *)
Fixpoint join (sep : string) (l : list string) : string :=
  match l with
  | [] => EmptyString
  | [x] => x
  | x :: l' => (x ++ sep ++ join sep l')%string
  end.

Definition quote (s : string) : string := ("'" ++ s ++ "'")%string.

(** [repr(v)]; strings are quoted with single quotes (the escaping of
    quotes and control characters inside them is not modelled). *)
Fixpoint py_repr (v : JValue) : string :=
  match v with
  | JNull => "None"
  | JBool true => "True"
  | JBool false => "False"
  | JNum n => string_of_Z n
  | JStr s => quote s
  | JArr l =>
      ("[" ++ join ", " ((fix go (l : list JValue) : list string :=
                           match l with
                           | [] => []
                           | x :: l' => py_repr x :: go l'
                           end) l) ++ "]")%string
  | JObj o =>
      ("{" ++ join ", " ((fix go (o : list (string * JValue)) : list string :=
                           match o with
                           | [] => []
                           | (k, x) :: o' => (quote k ++ ": " ++ py_repr x)%string :: go o'
                           end) o) ++ "}")%string
  end.

(** [str(v)] *)
Definition py_str (v : JValue) : string :=
  match v with
  | JStr s => s
  | _ => py_repr v
  end.

Definition newline : string := String (ascii_of_nat 10) EmptyString.

Definition is_space (c : ascii) : bool :=
  match nat_of_ascii c with
  | 32 | 9 | 10 | 11 | 12 | 13 => true
  | _ => false
  end%nat.

Fixpoint strip_leading (l : list ascii) : list ascii :=
  match l with
  | c :: l' => if is_space c then strip_leading l' else l
  | [] => []
  end.

Definition strip (l : list ascii) : list ascii :=
  rev (strip_leading (rev (strip_leading l))).

Fixpoint digits_value (acc : Z) (l : list ascii) : option Z :=
  match l with
  | [] => Some acc
  | c :: l' =>
      let d := nat_of_ascii c in
      if andb (Nat.leb 48 d) (Nat.leb d 57)
      then digits_value (acc * 10 + Z.of_nat (d - 48)) l'
      else None
  end.

Definition unsigned_value (l : list ascii) : option Z :=
  match l with
  | [] => None
  | _ => digits_value 0 l
  end.

(** [float(s)] of a string, on integer-valued strings: surrounding
    whitespace, an optional sign and decimal digits; any other string
    raises [ValueError] (fractions, exponents, [inf], [nan] and digit
    underscores are outside the integer model). *)
Definition parse_number_string (s : string) : option Z :=
  match strip (list_ascii_of_string s) with
  | "-"%char :: l => option_map Z.opp (unsigned_value l)
  | "+"%char :: l => unsigned_value l
  | l => unsigned_value l
  end.

(** The least integer whose conversion to a double overflows:
    [2^1024 - 2^970] rounds up to [2^1024]. *)
Definition float_overflow_bound : Z := 2 ^ 1024 - 2 ^ 970.

(** [try: ts = float(ts) except (TypeError, ValueError): ts = None] for a
    non-[None] [ts]; [OverflowError] is not caught. *)
Definition parse_time (ts : JValue) : outcome (option Z) :=
  match ts with
  | JNull => Ok None
  | JBool b => Ok (Some (if b then 1 else 0))
  | JNum n => if Z.leb float_overflow_bound (Z.abs n) then Raise OverflowError
              else Ok (Some n)
  | JStr s => Ok (parse_number_string s)
  | JArr _ | JObj _ => Ok None
  end.

(** The node dict built for each [mid]. *)
Record node := mkNode {
  n_id : string;
  n_parent : JValue;
  n_children : JValue;
  n_role : JValue;
  n_text : string;
  n_time : option Z
}.

(** A thread entry [{"role", "text", "time"}]. *)
Record entry := mkEntry {
  e_role : JValue;
  e_text : string;
  e_time : option Z
}.

Definition entry_of (n : node) : entry := mkEntry (n_role n) (n_text n) (n_time n).

(** The body of [for mid, data in mapping.items()]. *)
Definition build_node (mid : string) (data : JValue) : outcome node :=
  parent <- py_get data "parent" ;;
  children0 <- py_get data "children" ;;
  let children := py_or children0 (JArr []) in
  message <- py_get data "message" ;;
  let msg := py_or message (JObj []) in
  author <- py_get_default msg "author" (JObj []) ;;
  role <- py_get author "role" ;;
  content <- py_get_default msg "content" (JObj []) ;;
  parts0 <- py_get content "parts" ;;
  let parts := py_or parts0 (JArr []) in
  items <- py_iter parts ;;
  let text := join newline (map py_str (filter (fun p => negb (is_none p)) items)) in
  ts0 <- py_get msg "create_time" ;;
  ts <- (if is_none ts0 then Ok None else parse_time ts0) ;;
  Ok (mkNode mid parent children role text ts).

Fixpoint build_nodes (mapping : list (string * JValue)) : outcome (list node) :=
  match mapping with
  | [] => Ok []
  | (mid, data) :: mapping' =>
      n <- build_node mid data ;;
      ns <- build_nodes mapping' ;;
      Ok (n :: ns)
  end.

(** [leaves = [mid for mid, n in nodes.items() if not n["children"]]] *)
Definition leaf_ids (nodes : list node) : list string :=
  map n_id (filter (fun n => negb (truthy (n_children n))) nodes).

(** [nodes.get(cur)]: the keys are strings, so only a string finds a node. *)
Fixpoint find_node (nodes : list node) (s : string) : option node :=
  match nodes with
  | [] => None
  | n :: ns => if String.eqb (n_id n) s then Some n else find_node ns s
  end.

Definition lookup_node (nodes : list node) (cur : JValue) : option node :=
  match cur with
  | JStr s => find_node nodes s
  | _ => None
  end.

(** Lists and dicts cannot be members of a [set]. *)
Definition hashable (v : JValue) : bool :=
  match v with
  | JArr _ | JObj _ => false
  | _ => true
  end.

(** Python [==] on hashable JSON values ([True == 1], [False == 0]). *)
Definition py_eq (a b : JValue) : bool :=
  match a, b with
  | JNull, JNull => true
  | JBool x, JBool y => Bool.eqb x y
  | JBool x, JNum n | JNum n, JBool x => Z.eqb n (if x then 1 else 0)
  | JNum m, JNum n => Z.eqb m n
  | JStr s, JStr t => String.eqb s t
  | _, _ => false
  end.

(** [cur in seen] *)
Definition py_mem (v : JValue) (seen : list JValue) : bool :=
  existsb (py_eq v) seen.

(** The [while cur and cur not in seen] loop of one leaf, with its state
    [(path, seen)]; each iteration consumes one unit of [fuel]. *)
Fixpoint walk (fuel : nat) (nodes : list node) (cur : JValue)
    (seen : list JValue) (path : list entry) : outcome (list entry * list JValue) :=
  match fuel with
  | O => OutOfFuel
  | S fuel' =>
      if negb (truthy cur) then Ok (path, seen)
      else if negb (hashable cur) then Raise TypeError
      else if py_mem cur seen then Ok (path, seen)
      else
        let seen' := cur :: seen in
        match lookup_node nodes cur with
        | None => Ok (path, seen')
        | Some n =>
            let path' := if truthy (n_role n) then path ++ [entry_of n] else path in
            walk fuel' nodes (n_parent n) seen' path'
        end
  end.

(** The [for leaf in leaves] loop. *)
Fixpoint collect (fuel : nat) (nodes : list node) (leaves : list string)
    : outcome (list (list entry)) :=
  match leaves with
  | [] => Ok []
  | leaf :: leaves' =>
      r <- walk fuel nodes (JStr leaf) [] [] ;;
      let path := rev (fst r) in
      threads <- collect fuel nodes leaves' ;;
      Ok (match path with [] => threads | _ => path :: threads end)
  end.

Definition reconstruct_threads_fuel (fuel : nat) (mapping : list (string * JValue))
    : outcome (list (list entry)) :=
  match mapping with
  | [] => Ok []
  | _ =>
      nodes <- build_nodes mapping ;;
      collect fuel nodes (leaf_ids nodes)
  end.

(** Each walk visits at most one node per key plus one final id. *)
Definition reconstruct_threads (mapping : list (string * JValue))
    : outcome (list (list entry)) :=
  reconstruct_threads_fuel (S (List.length mapping)) mapping.

(** The upward walk as the specification describes it: from [cur], stop
    at a falsy id (no parent), an id already visited, or an id absent from
    the nodes; otherwise visit its node and continue with its parent.
    The list collects the visited nodes, leaf first. *)
Inductive ancestor_chain (nodes : list node) : JValue -> list JValue -> list node -> Prop :=
| chain_no_parent cur seen :
    truthy cur = false -> ancestor_chain nodes cur seen []
| chain_visited cur seen :
    truthy cur = true -> hashable cur = true -> py_mem cur seen = true ->
    ancestor_chain nodes cur seen []
| chain_absent cur seen :
    truthy cur = true -> hashable cur = true -> py_mem cur seen = false ->
    lookup_node nodes cur = None -> ancestor_chain nodes cur seen []
| chain_step cur seen n vis :
    truthy cur = true -> hashable cur = true -> py_mem cur seen = false ->
    lookup_node nodes cur = Some n ->
    ancestor_chain nodes (n_parent n) (cur :: seen) vis ->
    ancestor_chain nodes cur seen (n :: vis).

(** The thread the specification expects from the visited nodes: the
    entries of the role-bearing nodes, root first. *)
Definition spec_thread (vis : list node) : list entry :=
  rev (map entry_of (filter (fun n => truthy (n_role n)) vis)).

(** Threads without entries are dropped. *)
Definition keep_nonempty (ts : list (list entry)) : list (list entry) :=
  filter (fun t => match t with [] => false | _ => true end) ts.

(** Number of nodes whose id has not been visited yet. *)
Definition count_unseen (nodes : list node) (seen : list JValue) : nat :=
  List.length (filter (fun n => negb (py_mem (JStr (n_id n)) seen)) nodes).

End Reconstructor.

(* ================================================================= *)
(** ** [split_segments] over the Python heap

    The caller's list and its message dicts are objects shared by
    reference: the heap maps locations to list objects (holding
    locations) and dict objects. [sorted] allocates a new list,
    [segments] and each [current] are new lists grown by [append]. *)

Module SegmenterHeap.
Import Segmenter.

Definition loc := nat.

Inductive obj :=
| OList (xs : list loc)
| ODict (m : message).

Record store := mkStore {
  next : loc;
  heap : loc -> option obj
}.

(** Locations from [next] on are free. *)
Definition wf (s : store) : Prop :=
  forall l, (next s <= l)%nat -> heap s l = None.

Definition alloc (s : store) (o : obj) : loc * store :=
  (next s, mkStore (S (next s))
             (fun l => if Nat.eqb l (next s) then Some o else heap s l)).

Definition write (s : store) (l : loc) (o : obj) : store :=
  mkStore (next s) (fun l' => if Nat.eqb l' l then Some o else heap s l').

(** [lst.append(x)] *)
Definition append (s : store) (lst x : loc) : option store :=
  match heap s lst with
  | Some (OList xs) => Some (write s lst (OList (xs ++ [x])))
  | _ => None
  end.

(** Reading a message through [.get]: the object must be a dict. *)
Definition read_dict (s : store) (l : loc) : option message :=
  match heap s l with
  | Some (ODict m) => Some m
  | _ => None
  end.

Fixpoint read_dicts (s : store) (ls : list loc) : option (list (loc * message)) :=
  match ls with
  | [] => Some []
  | l :: ls' =>
      match read_dict s l, read_dicts s ls' with
      | Some m, Some ms => Some ((l, m) :: ms)
      | _, _ => None
      end
  end.

(** [sorted(messages, key=...)] on references, stable. *)
Fixpoint insert_ref (x : loc * message) (l : list (loc * message)) : list (loc * message) :=
  match l with
  | [] => [x]
  | y :: l' => if time_key (snd x) <=? time_key (snd y) then x :: y :: l'
               else y :: insert_ref x l'
  end.

Fixpoint sort_refs (l : list (loc * message)) : list (loc * message) :=
  match l with
  | [] => []
  | x :: l' => insert_ref x (sort_refs l')
  end.

(** The [zip] loop; [prev] and [cur] are read from the heap at each step. *)
Fixpoint scan_heap (gap : Z) (prev : loc) (rest : list loc) (current segments : loc)
    (s : store) : option store :=
  match rest with
  | [] =>
      match heap s current with
      | Some (OList []) => Some s
      | Some (OList _) => append s segments current
      | _ => None
      end
  | cur :: rest' =>
      match read_dict s prev, read_dict s cur with
      | Some mp, Some mc =>
          if boundary gap mp mc then
            match append s segments current with
            | Some s1 =>
                let (current', s2) := alloc s1 (OList [cur]) in
                scan_heap gap cur rest' current' segments s2
            | None => None
            end
          else
            match append s current cur with
            | Some s1 => scan_heap gap cur rest' current segments s1
            | None => None
            end
      | _, _ => None
      end
  end.

(** [split_segments(messages, gap_seconds)] on the list at [lst]; the
    result is the location of the new [segments] list, [None] when the
    code raises. *)
Definition split_segments_heap (gap : Z) (lst : loc) (s : store) : option (loc * store) :=
  match heap s lst with
  | Some (OList []) => Some (alloc s (OList []))
  | Some (OList xs) =>
      match read_dicts s xs with
      | None => None
      | Some ms =>
          let sorted := map fst (sort_refs ms) in
          let (_, s1) := alloc s (OList sorted) in
          let (segs, s2) := alloc s1 (OList []) in
          match sorted with
          | [] => None
          | l0 :: rest =>
              let (current, s3) := alloc s2 (OList [l0]) in
              match scan_heap gap l0 rest current segs s3 with
              | Some s4 => Some (segs, s4)
              | None => None
              end
          end
      end
  | _ => None
  end.

(** The heap [s'] extends [s]: nothing allocated before is changed. *)
Definition frame (s s' : store) : Prop :=
  (next s <= next s')%nat /\ forall l, (l < next s)%nat -> heap s' l = heap s l.

End SegmenterHeap.

(* ================================================================= *)
(** ** Output: [format_time] and [save_segments]

    [datetime.fromtimestamp(ts).strftime(...)] depends on the local time
    zone: it is a parameter [fromtimestamp] of the section, [None] when it
    raises. The file system is a map from paths to contents; [open(p, "w")]
    replaces the content at [p] (the output directory exists: it is created
    by [process_file]). Times of thread entries are floats, modelled by the
    integer [e_time]. *)

Module Output.
Import Reconstructor.
Local Open Scope string_scope.

Fixpoint zeros (k : nat) : string :=
  match k with
  | O => EmptyString
  | S k' => String "0"%char (zeros k')
  end.

(** [format(n, "0<w>d")]: the sign, zeros up to width [w], the digits. *)
Definition format_0d (w : nat) (n : Z) : string :=
  let digits := string_of_Z (Z.abs n) in
  let sign := if Z.ltb n 0 then "-" else EmptyString in
  sign ++ zeros (w - (String.length sign + String.length digits)) ++ digits.

(** [f"conv{conv_index:03d}_thread{thread_index:02d}_seg{s_idx:02d}.md"] *)
Definition segment_filename (conv_index thread_index s_idx : Z) : string :=
  "conv" ++ format_0d 3 conv_index ++ "_thread" ++ format_0d 2 thread_index ++
  "_seg" ++ format_0d 2 s_idx ++ ".md".

Definition starts_with_sep (b : string) : bool :=
  match b with
  | String c _ => Ascii.eqb c "/"%char
  | EmptyString => false
  end.

Fixpoint ends_with_sep (a : string) : bool :=
  match a with
  | EmptyString => false
  | String c EmptyString => Ascii.eqb c "/"%char
  | String _ r => ends_with_sep r
  end.

(** [os.path.join(a, b)] (POSIX). *)
Definition path_join (a b : string) : string :=
  if starts_with_sep b then b
  else if orb (String.eqb a EmptyString) (ends_with_sep a) then a ++ b
  else a ++ "/" ++ b.

(** Decimal digit strings (the shape of [format_0d] on non-negative
    numbers). *)
Definition is_digit (c : ascii) : bool :=
  andb (Nat.leb 48 (nat_of_ascii c)) (Nat.leb (nat_of_ascii c) 57).

Fixpoint all_digits (s : string) : bool :=
  match s with
  | EmptyString => true
  | String c s' => andb (is_digit c) (all_digits s')
  end.

(** The values [format_time] is given: [None], an int, a float, a string. *)
Inductive time_arg :=
| TNone
| TInt (n : Z)
| TFloat (q : Q)
| TStr (s : string).

Definition NA : string := "N/A".

(** [1e12] *)
Definition ms_threshold : Z := 10 ^ 12.

Section WithClock.

Variable fromtimestamp : Q -> option string.

(** [try: return datetime.fromtimestamp(ts).strftime(...) except: "N/A"] *)
Definition strftime_or_na (q : Q) : string :=
  match fromtimestamp q with
  | Some s => s
  | None => NA
  end.

(** [format_time] on a float: [if ts and ts > 1e12: ts = ts / 1000.0]. *)
Definition format_float (q : Q) : string :=
  if andb (negb (Qeq_bool q 0)) (negb (Qle_bool q (inject_Z ms_threshold)))
  then strftime_or_na (q / inject_Z 1000)
  else strftime_or_na q.

(** [format_time(ts)]; a string goes through [float(ts)] (on integer-valued
    strings, see [parse_number_string]); [ts / 1000.0] on an int converts
    it to a float, which raises [OverflowError] outside the [try]. *)
Definition format_time (ts : time_arg) : outcome string :=
  match ts with
  | TNone => Ok NA
  | TStr s =>
      match parse_number_string s with
      | Some n => Ok (format_float (inject_Z n))
      | None => Ok NA
      end
  | TFloat q => Ok (format_float q)
  | TInt n =>
      if andb (negb (Z.eqb n 0)) (Z.ltb ms_threshold n) then
        if Z.leb float_overflow_bound (Z.abs n) then Raise OverflowError
        else Ok (strftime_or_na (inject_Z n / inject_Z 1000))
      else Ok (strftime_or_na (inject_Z n))
  end.

(** [msg.get("time")] of a thread entry: [None] or a float. *)
Definition time_arg_of (t : option Z) : time_arg :=
  match t with
  | None => TNone
  | Some n => TFloat (inject_Z n)
  end.

(** [format_time] on the time of an entry, which never raises. *)
Definition entry_timestamp (m : entry) : string :=
  match e_time m with
  | None => NA
  | Some n => format_float (inject_Z n)
  end.

(** [f"**{timestamp} - {role}:**\n{text}\n\n"] *)
Definition render_message (m : entry) : string :=
  "**" ++ entry_timestamp m ++ " - " ++ py_str (e_role m) ++ ":**" ++ newline ++
  e_text m ++ newline ++ newline.

(** The content written to one segment file. *)
Definition render_segment (title : string) (thread_index s_idx : Z) (seg : list entry)
    : string :=
  "# " ++ title ++ " - Thread " ++ string_of_Z thread_index ++ " Segment " ++
  string_of_Z s_idx ++ newline ++ newline ++
  String.concat EmptyString (map render_message seg).

Definition fs := string -> option string.

Definition write_file (f : fs) (p c : string) : fs :=
  fun p' => if String.eqb p' p then Some c else f p'.

(** The [for s_idx, seg in enumerate(segments)] loop from index [s_idx]. *)
Fixpoint save_from (title : string) (conv_index thread_index : Z) (out_dir : string)
    (s_idx : Z) (segs : list (list entry)) (f : fs) : fs :=
  match segs with
  | [] => f
  | seg :: segs' =>
      save_from title conv_index thread_index out_dir (s_idx + 1) segs'
        (write_file f (path_join out_dir (segment_filename conv_index thread_index s_idx))
                    (render_segment title thread_index s_idx seg))
  end.

Definition save_segments (title : string) (conv_index thread_index : Z)
    (segments : list (list entry)) (out_dir : string) (f : fs) : fs :=
  save_from title conv_index thread_index out_dir 0 segments f.

End WithClock.

End Output.

(* ================================================================= *)
(** ** Concrete inputs and the claims as stated *)

Module SegmenterExamples.
Import Segmenter.

(** The claim C3 as stated: in the sorted order, a message without a time
    comes no later than any message with a known time. *)
Definition absent_time_first : Prop :=
  forall (ms : list message) (i j : nat) (a b : message) (t : Z),
    nth_error (sort_by_time ms) i = Some a -> m_time a = None ->
    nth_error (sort_by_time ms) j = Some b -> m_time b = Some t ->
    (i <= j)%nat.

Definition msg_no_time : message := mkMessage (Some "user"%string) "a" None.

Definition msg_negative : message := mkMessage (Some "user"%string) "b" (Some (-5)).

Definition ex_gap_a : message := mkMessage (Some "user"%string) "a" (Some 0).

Definition ex_gap_b : message := mkMessage (Some "user"%string) "b" (Some 1800).

Definition ex_role_a : message := mkMessage (Some "user"%string) "a" None.

Definition ex_role_b : message := mkMessage None "b" None.

Definition ex_time_a : message := mkMessage (Some "user"%string) "a" None.

Definition ex_time_b : message := mkMessage (Some "user"%string) "b" (Some 100000).

Definition ex_thread : list message :=
  [mkMessage (Some "user"%string) "a" (Some 0);
   mkMessage (Some "assistant"%string) "b" (Some 10);
   mkMessage (Some "assistant"%string) "c" (Some 2000)].

(** A thread given out of time order: sorted, it reads [a] (no time,
    key 0), [d] at 40, [b] at 100, all from the user, then the assistant's
    [c] at 5000. *)
Definition ex_sort_a : message := mkMessage (Some "user"%string) "a" None.

Definition ex_sort_b : message := mkMessage (Some "user"%string) "b" (Some 100).

Definition ex_sort_c : message := mkMessage (Some "assistant"%string) "c" (Some 5000).

Definition ex_sort_d : message := mkMessage (Some "user"%string) "d" (Some 40).

Definition ex_sort_thread : list message := [ex_sort_b; ex_sort_a; ex_sort_c; ex_sort_d].

End SegmenterExamples.

Module ReconstructorExamples.
Import Reconstructor.
Local Open Scope string_scope.

(** A node whose message has ["author": null]. *)
Definition mapping_author_null : list (string * JValue) :=
  [("a", JObj [("parent", JNull); ("children", JArr []);
               ("message", JObj [("author", JNull);
                                 ("content", JObj [("parts", JArr [JStr "hi"])])])])].

(** A node whose message has ["content": null]. *)
Definition mapping_content_null : list (string * JValue) :=
  [("a", JObj [("parent", JNull); ("children", JArr []);
               ("message", JObj [("author", JObj [("role", JStr "user")]);
                                 ("content", JNull)])])].

(** Node [A] has parent [B] and [B] has parent [A]. *)
Definition mapping_cycle : list (string * JValue) :=
  [("A", JObj [("parent", JStr "B");
               ("message", JObj [("author", JObj [("role", JStr "user")])])]);
   ("B", JObj [("parent", JStr "A"); ("children", JArr [JStr "A"]);
               ("message", JObj [("author", JObj [("role", JStr "assistant")])])])].

(** The claim C8 as stated: every leaf node whose role is present (not
    null), even the empty string, contributes its entry to some thread. *)
Definition present_role_contributes : Prop :=
  forall mapping threads nodes n,
    reconstruct_threads mapping = Ok threads ->
    build_nodes mapping = Ok nodes -> In n nodes ->
    truthy (n_children n) = false -> n_role n <> JNull ->
    exists t, In t threads /\ In (entry_of n) t.

(** A single leaf whose role is the empty string. *)
Definition mapping_empty_role : list (string * JValue) :=
  [("a", JObj [("message", JObj [("author", JObj [("role", JStr EmptyString)])])])].

(** Scenario 1 of the specification. *)
Definition mapping_scenario1 : list (string * JValue) :=
  [("root", JObj [("parent", JNull); ("children", JArr [JStr "a"])]);
   ("a", JObj [("parent", JStr "root"); ("children", JArr []);
               ("message", JObj [("author", JObj [("role", JStr "user")]);
                                 ("content", JObj [("parts", JArr [JStr "hi"])]);
                                 ("create_time", JNum 100)])])].

(** The thread of [mapping_cycle]: [B] then [A]. *)
Definition cycle_thread : list entry :=
  [mkEntry (JStr "assistant") EmptyString None;
   mkEntry (JStr "user") EmptyString None].

End ReconstructorExamples.

Module SegmenterHeapExamples.
Import Segmenter SegmenterHeap.
Local Open Scope nat_scope.

(** The caller's list at location 0 holds two message dicts. *)
Definition ex_store : store :=
  mkStore 3 (fun l => match l with
                      | 0 => Some (OList [2; 1])
                      | 1 => Some (ODict (mkMessage (Some "user"%string) "a" (Some 5%Z)))
                      | 2 => Some (ODict (mkMessage (Some "user"%string) "b" (Some 9%Z)))
                      | _ => None
                      end%nat).

End SegmenterHeapExamples.

(* ================================================================= *)
(** ** Proofs about the segmenter *)

Module SegmenterProofs.
Import Segmenter.

(** *** Coverage *)

Lemma insert_by_time_perm (x : message) (l : list message) :
  Permutation (insert_by_time x l) (x :: l).
Proof.
  induction l as [|y l IH]; simpl; [reflexivity|].
  destruct (time_key x <=? time_key y); [reflexivity|].
  rewrite IH. apply perm_swap.
Qed.

Lemma sort_by_time_perm (l : list message) : Permutation (sort_by_time l) l.
Proof.
  induction l as [|x l IH]; simpl; [reflexivity|].
  rewrite insert_by_time_perm. now apply perm_skip.
Qed.

Lemma scan_concat (gap : Z) (prev : message) (rest current : list message)
    (segs : list (list message)) :
  List.concat (scan gap prev rest current segs) =
  List.concat segs ++ current ++ rest.
Proof.
  revert prev current segs.
  induction rest as [|cur rest IH]; intros prev current segs; simpl.
  - destruct current; rewrite ?concat_app; simpl; rewrite ?app_nil_r; auto.
  - destruct (boundary gap prev cur); rewrite IH, ?concat_app; simpl;
      rewrite <- ?app_assoc, ?app_nil_r; reflexivity.
Qed.

Lemma split_segments_concat (ms : list message) (gap : Z) :
  List.concat (split_segments ms gap) = sort_by_time ms.
Proof.
  unfold split_segments. destruct ms as [|m ms']; [reflexivity|].
  destruct (sort_by_time (m :: ms')) as [|m0 rest]; [reflexivity|].
  rewrite scan_concat. reflexivity.
Qed.

(** *** Where segments start *)

Lemma start_flags_app (s1 s2 : list (list message)) :
  start_flags (s1 ++ s2) = start_flags s1 ++ start_flags s2.
Proof. unfold start_flags. now rewrite map_app, concat_app. Qed.

Lemma start_flags_snoc (current : list message) (cur : message) :
  current <> [] ->
  start_flags [current ++ [cur]] = start_flags [current] ++ [false].
Proof.
  destruct current as [|c t]; [congruence|]. intros _.
  unfold start_flags; simpl. rewrite !app_nil_r, map_app. reflexivity.
Qed.

Lemma scan_flags (gap : Z) (prev : message) (rest current : list message)
    (segs : list (list message)) :
  current <> [] ->
  start_flags (scan gap prev rest current segs) =
  start_flags segs ++ start_flags [current] ++ pair_flags gap (prev :: rest).
Proof.
  revert prev current segs.
  induction rest as [|cur rest IH]; intros prev current segs Hc; simpl.
  - destruct current as [|c t]; [congruence|].
    rewrite start_flags_app, app_nil_r. reflexivity.
  - destruct (boundary gap prev cur) eqn:Hb.
    + rewrite IH by congruence. rewrite start_flags_app, <- app_assoc.
      reflexivity.
    + rewrite IH by (destruct current; simpl; congruence).
      rewrite start_flags_snoc by assumption. rewrite <- app_assoc.
      reflexivity.
Qed.

Lemma split_segments_flags (ms : list message) (gap : Z) :
  start_flags (split_segments ms gap) =
  match sort_by_time ms with
  | [] => []
  | _ => true :: pair_flags gap (sort_by_time ms)
  end.
Proof.
  unfold split_segments. destruct ms as [|m ms']; [reflexivity|].
  destruct (sort_by_time (m :: ms')) as [|m0 rest]; [reflexivity|].
  rewrite scan_flags by congruence. reflexivity.
Qed.

Lemma pair_flags_nth (gap : Z) (l : list message) (i : nat) (a b : message) :
  nth_error l i = Some a -> nth_error l (S i) = Some b ->
  nth_error (pair_flags gap l) i = Some (boundary gap a b).
Proof.
  revert i. induction l as [|x l IH]; intros i Ha Hb; [destruct i; discriminate|].
  destruct l as [|y l]; [destruct i as [|[]]; discriminate|].
  destruct i as [|i]; simpl in *.
  - congruence.
  - apply IH; assumption.
Qed.

(** The flag at the position of [cur] in the sorted order is exactly the
    boundary test of the pair [(prev, cur)]. *)
Lemma split_segments_flag_at (ms : list message) (gap : Z) (i : nat)
    (prev cur : message) :
  nth_error (sort_by_time ms) i = Some prev ->
  nth_error (sort_by_time ms) (S i) = Some cur ->
  nth_error (start_flags (split_segments ms gap)) (S i) =
  Some (boundary gap prev cur).
Proof.
  intros Hp Hc. rewrite split_segments_flags.
  destruct (sort_by_time ms) eqn:E; [destruct i; discriminate|].
  exact (pair_flags_nth gap (m :: l) i prev cur Hp Hc).
Qed.

Lemma starts_segment_iff (ms : list message) (gap : Z) (i : nat)
    (prev cur : message) :
  nth_error (sort_by_time ms) i = Some prev ->
  nth_error (sort_by_time ms) (S i) = Some cur ->
  (starts_segment (split_segments ms gap) (S i) <-> boundary gap prev cur = true)
  /\ (same_segment (split_segments ms gap) (S i) <-> boundary gap prev cur = false).
Proof.
  intros Hp Hc. unfold starts_segment, same_segment.
  rewrite (split_segments_flag_at ms gap i prev cur Hp Hc).
  split; split; intro H; congruence.
Qed.

Lemma role_change_spec (prev cur : message) :
  role_change prev cur = true <-> m_role prev <> m_role cur.
Proof.
  unfold role_change.
  destruct (m_role prev) as [a|], (m_role cur) as [b|];
    try (split; congruence).
  rewrite negb_true_iff, String.eqb_neq. split; congruence.
Qed.

Lemma insert_by_time_sorted (x : message) (l : list message) :
  Sorted key_le l -> Sorted key_le (insert_by_time x l).
Proof.
  induction l as [|y l IH]; simpl; intros H; [repeat constructor|].
  destruct (time_key x <=? time_key y) eqn:E.
  - constructor; [assumption|]. constructor. unfold key_le. lia.
  - apply Sorted_inv in H as [Hl Hhd]. constructor; [now apply IH|].
    destruct l as [|z l']; simpl.
    + constructor. unfold key_le. lia.
    + destruct (time_key x <=? time_key z); constructor;
        [unfold key_le; lia | now inversion Hhd].
Qed.

Lemma sort_by_time_sorted (l : list message) : Sorted key_le (sort_by_time l).
Proof.
  induction l as [|x l IH]; simpl; [constructor|].
  now apply insert_by_time_sorted.
Qed.

Lemma sorted_nth {A : Type} (R : A -> A -> Prop) (l : list A) (i j : nat) (x y : A) :
  StronglySorted R l -> (i < j)%nat ->
  nth_error l i = Some x -> nth_error l j = Some y -> R x y.
Proof.
  revert i j. induction l as [|z l IH]; intros i j Hs Hij Hx Hy;
    [destruct i; discriminate|].
  apply StronglySorted_inv in Hs as [Hs Hall].
  destruct i as [|i], j as [|j]; try lia; simpl in Hx, Hy.
  - injection Hx as <-. rewrite Forall_forall in Hall.
    apply Hall. eapply nth_error_In; eassumption.
  - apply (IH i j); auto. lia.
Qed.

Lemma sort_by_time_nth_le (ms : list message) (i j : nat) (x y : message) :
  (i < j)%nat ->
  nth_error (sort_by_time ms) i = Some x ->
  nth_error (sort_by_time ms) j = Some y -> time_key x <= time_key y.
Proof.
  intros. apply (sorted_nth key_le (sort_by_time ms) i j); auto.
  apply Sorted_StronglySorted; [intros a b c; unfold key_le; lia|].
  apply sort_by_time_sorted.
Qed.

Lemma sort_by_time_id (l : list message) :
  Sorted key_le l -> sort_by_time l = l.
Proof.
  induction l as [|x l IH]; intros H; simpl; [reflexivity|].
  apply Sorted_inv in H as [Hl Hhd]. rewrite (IH Hl).
  destruct l as [|y l]; [reflexivity|]. simpl.
  inversion Hhd as [|? ? Hxy]. unfold key_le in Hxy.
  destruct (time_key x <=? time_key y) eqn:E; [reflexivity|lia].
Qed.

Lemma sorted_snoc {A : Type} (R : A -> A -> Prop) (l : list A) (p q : A) :
  Sorted R (l ++ [p]) -> R p q -> Sorted R ((l ++ [p]) ++ [q]).
Proof.
  induction l as [|x l IH]; simpl; intros H Hpq.
  - repeat constructor. assumption.
  - apply Sorted_inv in H as [Hl Hhd]. constructor; [now apply IH|].
    destruct l; simpl in *; inversion Hhd; constructor; assumption.
Qed.

Lemma sorted_weaken {A : Type} (R R' : A -> A -> Prop) (l : list A) :
  (forall a b, R a b -> R' a b) -> Sorted R l -> Sorted R' l.
Proof.
  intros Himp. induction 1 as [|x l Hl IH Hhd]; constructor; [assumption|].
  destruct Hhd; constructor. now apply Himp.
Qed.

Lemma scan_segments_ok (gap : Z) (prev : message) (rest current : list message)
    (segs : list (list message)) :
  Sorted key_le (prev :: rest) ->
  (exists c, current = c ++ [prev]) ->
  Sorted (seg_rel gap) current ->
  (forall s, In s segs -> seg_ok gap s) ->
  forall s, In s (scan gap prev rest current segs) -> seg_ok gap s.
Proof.
  revert prev current segs.
  induction rest as [|cur rest IH]; intros prev current segs Hs [c ->] Hc Hsegs s Hin.
  - destruct (c ++ [prev]) as [|y t] eqn:E; [destruct c; discriminate|].
    simpl in Hin. apply in_app_or in Hin as [Hin|[<-|[]]]; [now apply Hsegs|].
    split; [discriminate|assumption].
  - simpl in Hin. apply Sorted_inv in Hs as [Hs Hhd].
    inversion Hhd as [|? ? Hpc]; subst.
    destruct (boundary gap prev cur) eqn:Hb.
    + apply IH with (prev := cur) (current := [cur])
        (segs := segs ++ [c ++ [prev]]); auto.
      * exists []. reflexivity.
      * intros s' Hs'. apply in_app_or in Hs' as [Hs'|[<-|[]]]; [now apply Hsegs|].
        split; [destruct c; discriminate|assumption].
    + apply IH with (prev := cur) (current := (c ++ [prev]) ++ [cur]) (segs := segs);
        auto.
      * exists (c ++ [prev]). reflexivity.
      * apply sorted_snoc; [assumption|]. split; assumption.
Qed.

Lemma split_segments_ok (ms : list message) (gap : Z) (s : list message) :
  In s (split_segments ms gap) -> seg_ok gap s.
Proof.
  unfold split_segments. destruct ms as [|m ms']; [intros []|].
  pose proof (sort_by_time_sorted (m :: ms')) as Hs.
  destruct (sort_by_time (m :: ms')) as [|m0 rest]; [intros []|].
  apply scan_segments_ok; auto.
  - exists []. reflexivity.
  - intros ? [].
Qed.

Lemma scan_no_boundary (gap : Z) (prev : message) (rest current : list message)
    (segs : list (list message)) :
  current <> [] -> Sorted (seg_rel gap) (prev :: rest) ->
  scan gap prev rest current segs = segs ++ [current ++ rest].
Proof.
  revert prev current.
  induction rest as [|cur rest IH]; intros prev current Hc Hs; simpl.
  - destruct current; [congruence|]. now rewrite app_nil_r.
  - apply Sorted_inv in Hs as [Hs Hhd]. inversion Hhd as [|? ? [_ Hb]]; subst.
    rewrite Hb, IH by (auto; destruct current; discriminate).
    now rewrite <- app_assoc.
Qed.

End SegmenterProofs.

(* ================================================================= *)
(** ** Claims about the segmenter *)

Module SegmenterClaims.
Import Segmenter SegmenterProofs SegmenterExamples.

(** Claim C2: the concatenation of the segments returned by
    [split_segments] is a permutation of the input thread: no message is
    lost and none is duplicated. *)
Theorem split_segments_coverage (ms : list message) (gap : Z) :
  Permutation (List.concat (split_segments ms gap)) ms.
Proof. rewrite split_segments_concat. apply sort_by_time_perm. Qed.

(** Claim C3 (counterexample): an absent time sorts as 0, so a message
    with time -5 is placed before a message without a time. *)
Lemma absent_time_first_counterexample : ~ absent_time_first.
Proof.
  intros H.
  assert (Hs : sort_by_time [msg_no_time; msg_negative] = [msg_negative; msg_no_time])
    by reflexivity.
  specialize (H [msg_no_time; msg_negative] 1%nat 0%nat msg_no_time msg_negative (-5)).
  rewrite Hs in H. specialize (H eq_refl eq_refl eq_refl eq_refl). lia.
Qed.

(** Claim C3 (amended): for inputs without NaN times, the sorted copy is
    ordered by time with an absent time read as 0: a message without a
    time comes before every message with a positive time and after every
    message with a negative time. *)
Theorem sort_absent_time_as_zero (ms : list message) (i j : nat) (a b : message)
    (t : Z) :
  nth_error (sort_by_time ms) i = Some a -> m_time a = None ->
  nth_error (sort_by_time ms) j = Some b -> m_time b = Some t ->
  (0 < t -> (i < j)%nat) /\ (t < 0 -> (j < i)%nat).
Proof.
  intros Ha Hta Hb Htb.
  assert (Hka : time_key a = 0) by (unfold time_key; now rewrite Hta).
  assert (Hkb : time_key b = t) by (unfold time_key; now rewrite Htb).
  destruct (Nat.lt_total i j) as [Hij|[<-|Hji]].
  - split; [auto|]. intros Ht.
    pose proof (sort_by_time_nth_le ms i j a b Hij Ha Hb). lia.
  - rewrite Ha in Hb. injection Hb as <-. congruence.
  - split; [|auto]. intros Ht.
    pose proof (sort_by_time_nth_le ms j i b a Hji Hb Ha). lia.
Qed.

Lemma sort_absent_time_as_zero_witness :
  nth_error (sort_by_time [msg_no_time; msg_negative]) 1 = Some msg_no_time /\
  nth_error (sort_by_time [msg_no_time; msg_negative]) 0 = Some msg_negative /\
  ((0 < -5 -> (1 < 0)%nat) /\ (-5 < 0 -> (0 < 1)%nat)).
Proof.
  split; [reflexivity|]. split; [reflexivity|].
  apply (sort_absent_time_as_zero [msg_no_time; msg_negative] 1 0
           msg_no_time msg_negative (-5)); reflexivity.
Defined.

(** Claim C4: the gap test is strict. For consecutive sorted messages
    with the same role and known times, a gap equal to [gap_seconds] keeps
    them in one segment and a larger gap starts a new segment at [cur]. *)
Theorem split_segments_gap_strict (ms : list message) (gap : Z) (i : nat)
    (prev cur : message) (tp tc : Z) :
  nth_error (sort_by_time ms) i = Some prev ->
  nth_error (sort_by_time ms) (S i) = Some cur ->
  m_role prev = m_role cur -> m_time prev = Some tp -> m_time cur = Some tc ->
  (tc - tp = gap -> same_segment (split_segments ms gap) (S i)) /\
  (tc - tp > gap -> starts_segment (split_segments ms gap) (S i)).
Proof.
  intros Hp Hc Hr Htp Htc.
  destruct (starts_segment_iff ms gap i prev cur Hp Hc) as [Hst Hsame].
  assert (Hrc : role_change prev cur = false).
  { destruct (role_change prev cur) eqn:E; [|reflexivity].
    apply role_change_spec in E. contradiction. }
  unfold boundary, time_gap in *. rewrite Htp, Htc, Hrc in *.
  split; intros Hgap.
  - apply Hsame. rewrite orb_false_r. apply Z.ltb_ge. lia.
  - apply Hst. rewrite orb_false_r. apply Z.ltb_lt. lia.
Qed.

Lemma split_segments_gap_strict_witness :
  nth_error (sort_by_time [ex_gap_a; ex_gap_b]) 0 = Some ex_gap_a /\
  nth_error (sort_by_time [ex_gap_a; ex_gap_b]) 1 = Some ex_gap_b /\
  ((1800 - 0 = 1800 -> same_segment (split_segments [ex_gap_a; ex_gap_b] 1800) 1) /\
   (1800 - 0 > 1800 -> starts_segment (split_segments [ex_gap_a; ex_gap_b] 1800) 1)).
Proof.
  split; [reflexivity|]. split; [reflexivity|].
  apply (split_segments_gap_strict [ex_gap_a; ex_gap_b] 1800 0 ex_gap_a ex_gap_b 0 1800);
    reflexivity.
Defined.

(** Claim C5: two consecutive sorted messages whose roles differ (an
    absent role differs from every present one) are always split, whatever
    their times. *)
Theorem split_segments_role_change (ms : list message) (gap : Z) (i : nat)
    (prev cur : message) :
  nth_error (sort_by_time ms) i = Some prev ->
  nth_error (sort_by_time ms) (S i) = Some cur ->
  m_role prev <> m_role cur ->
  starts_segment (split_segments ms gap) (S i).
Proof.
  intros Hp Hc Hr.
  apply (proj1 (starts_segment_iff ms gap i prev cur Hp Hc)).
  unfold boundary. apply orb_true_iff. right. now apply role_change_spec.
Qed.

Lemma split_segments_role_change_witness :
  nth_error (sort_by_time [ex_role_a; ex_role_b]) 0 = Some ex_role_a /\
  nth_error (sort_by_time [ex_role_a; ex_role_b]) 1 = Some ex_role_b /\
  starts_segment (split_segments [ex_role_a; ex_role_b] GAP_SECONDS) 1.
Proof.
  split; [reflexivity|]. split; [reflexivity|].
  apply (split_segments_role_change [ex_role_a; ex_role_b] GAP_SECONDS 0
           ex_role_a ex_role_b); try reflexivity. discriminate.
Defined.

(** Claim C6: when one or both times of a consecutive sorted pair are
    absent, the time gap never splits them: they are split exactly when
    their roles differ. *)
Theorem split_segments_missing_time (ms : list message) (gap : Z) (i : nat)
    (prev cur : message) :
  nth_error (sort_by_time ms) i = Some prev ->
  nth_error (sort_by_time ms) (S i) = Some cur ->
  (m_time prev = None \/ m_time cur = None) ->
  (starts_segment (split_segments ms gap) (S i) <-> m_role prev <> m_role cur) /\
  (same_segment (split_segments ms gap) (S i) <-> m_role prev = m_role cur).
Proof.
  intros Hp Hc Ht.
  destruct (starts_segment_iff ms gap i prev cur Hp Hc) as [Hst Hsame].
  assert (Hg : time_gap gap prev cur = false).
  { unfold time_gap. destruct Ht as [E|E]; rewrite E;
      [reflexivity | destruct (m_time prev); reflexivity]. }
  unfold boundary in *. rewrite Hg in *. simpl in *.
  rewrite Hst, Hsame, <- role_change_spec.
  split; [reflexivity|].
  destruct (role_change prev cur) eqn:E; split; intro H; try reflexivity;
    try discriminate.
  - exfalso. apply role_change_spec in E. contradiction.
  - destruct (m_role prev) as [a|] eqn:Ea, (m_role cur) as [b|] eqn:Eb;
      unfold role_change in E; rewrite Ea, Eb in E; try discriminate; auto.
    apply negb_false_iff, String.eqb_eq in E. congruence.
Qed.

Lemma split_segments_missing_time_witness :
  nth_error (sort_by_time [ex_time_a; ex_time_b]) 0 = Some ex_time_a /\
  nth_error (sort_by_time [ex_time_a; ex_time_b]) 1 = Some ex_time_b /\
  ((starts_segment (split_segments [ex_time_a; ex_time_b] GAP_SECONDS) 1 <->
    m_role ex_time_a <> m_role ex_time_b) /\
   (same_segment (split_segments [ex_time_a; ex_time_b] GAP_SECONDS) 1 <->
    m_role ex_time_a = m_role ex_time_b)).
Proof.
  split; [reflexivity|]. split; [reflexivity|].
  apply (split_segments_missing_time [ex_time_a; ex_time_b] GAP_SECONDS 0
           ex_time_a ex_time_b); try reflexivity. now left.
Defined.

(** Claim C9: [split_segments] is idempotent on its own output: every
    segment it returns, split again with the same threshold, gives back
    exactly that one segment. *)
Theorem split_segments_idempotent (ms : list message) (gap : Z)
    (s : list message) :
  In s (split_segments ms gap) -> split_segments s gap = [s].
Proof.
  intros Hin. destruct (split_segments_ok ms gap s Hin) as [Hne Hs].
  unfold split_segments. destruct s as [|m0 rest]; [congruence|].
  rewrite sort_by_time_id.
  - rewrite scan_no_boundary by (auto; discriminate). reflexivity.
  - apply (sorted_weaken (seg_rel gap)); [now intros a b []|assumption].
Qed.

Lemma split_segments_idempotent_witness :
  In [ex_sort_a; ex_sort_d; ex_sort_b] (split_segments ex_sort_thread GAP_SECONDS) /\
  split_segments [ex_sort_a; ex_sort_d; ex_sort_b] GAP_SECONDS =
  [[ex_sort_a; ex_sort_d; ex_sort_b]].
Proof.
  assert (H : In [ex_sort_a; ex_sort_d; ex_sort_b]
                (split_segments ex_sort_thread GAP_SECONDS))
    by (vm_compute; left; reflexivity).
  split; [exact H|].
  exact (split_segments_idempotent ex_sort_thread GAP_SECONDS _ H).
Defined.

End SegmenterClaims.

(* ================================================================= *)
(** ** Proofs about the reconstructor *)

Module ReconstructorProofs.
Import Reconstructor.

Lemma py_eq_refl (v : JValue) : hashable v = true -> py_eq v v = true.
Proof.
  destruct v; simpl; intros H; try discriminate.
  - reflexivity.
  - apply eqb_reflx.
  - apply Z.eqb_refl.
  - apply String.eqb_refl.
Qed.

Lemma py_mem_In (v : JValue) (seen : list JValue) :
  hashable v = true -> In v seen -> py_mem v seen = true.
Proof.
  intros Hh Hin. unfold py_mem. apply existsb_exists.
  exists v. split; [assumption|]. now apply py_eq_refl.
Qed.

Lemma find_node_some (nodes : list node) (s : string) (n : node) :
  find_node nodes s = Some n -> n_id n = s /\ In n nodes.
Proof.
  induction nodes as [|m ns IH]; simpl; [discriminate|].
  destruct (String.eqb (n_id m) s) eqn:E.
  - intros [= <-]. apply String.eqb_eq in E. auto.
  - intros H. destruct (IH H). auto.
Qed.

Lemma lookup_node_some (nodes : list node) (cur : JValue) (n : node) :
  lookup_node nodes cur = Some n -> cur = JStr (n_id n) /\ In n nodes.
Proof.
  destruct cur; simpl; try discriminate.
  intros H. apply find_node_some in H as [<- Hin]. auto.
Qed.

Lemma filter_length_mono {A : Type} (p q : A -> bool) (l : list A) :
  (forall y, In y l -> q y = true -> p y = true) ->
  (List.length (filter q l) <= List.length (filter p l))%nat.
Proof.
  induction l as [|a l IH]; simpl; intros H; [lia|].
  specialize (IH (fun y Hy => H y (or_intror Hy))).
  destruct (q a) eqn:Eq; [rewrite (H a (or_introl eq_refl) Eq); simpl; lia|].
  destruct (p a); simpl; lia.
Qed.

Lemma filter_length_strict {A : Type} (p q : A -> bool) (l : list A) (x : A) :
  (forall y, In y l -> q y = true -> p y = true) ->
  In x l -> p x = true -> q x = false ->
  (List.length (filter q l) < List.length (filter p l))%nat.
Proof.
  induction l as [|a l IH]; simpl; intros H Hx Hp Hq; [contradiction|].
  destruct Hx as [<-|Hx].
  - rewrite Hp, Hq. simpl.
    pose proof (filter_length_mono p q l (fun y Hy => H y (or_intror Hy))). lia.
  - specialize (IH (fun y Hy => H y (or_intror Hy)) Hx Hp Hq).
    destruct (q a) eqn:Eq; [rewrite (H a (or_introl eq_refl) Eq); simpl; lia|].
    destruct (p a); simpl; lia.
Qed.

Lemma count_unseen_le (nodes : list node) (seen : list JValue) :
  (count_unseen nodes seen <= List.length nodes)%nat.
Proof. unfold count_unseen. apply List.filter_length_le. Qed.

(** Visiting a node whose id is new removes it from the unseen ones. *)
Lemma count_unseen_step (nodes : list node) (seen : list JValue) (cur : JValue)
    (n : node) :
  lookup_node nodes cur = Some n -> py_mem cur seen = false ->
  (count_unseen nodes (cur :: seen) < count_unseen nodes seen)%nat.
Proof.
  intros Hl Hm. apply lookup_node_some in Hl as [-> Hin].
  unfold count_unseen. apply (filter_length_strict _ _ nodes n); auto.
  - intros y _. unfold py_mem. simpl. rewrite !negb_true_iff, orb_false_iff.
    tauto.
  - now rewrite Hm.
  - unfold py_mem. simpl. rewrite String.eqb_refl. reflexivity.
Qed.

(** *** Termination of the upward walk *)

Lemma walk_not_out_of_fuel (fuel : nat) (nodes : list node) (cur : JValue)
    (seen : list JValue) (path : list entry) :
  (count_unseen nodes seen < fuel)%nat -> walk fuel nodes cur seen path <> OutOfFuel.
Proof.
  revert cur seen path.
  induction fuel as [|fuel IH]; intros cur seen path Hf; [lia|]. simpl.
  destruct (truthy cur); simpl; [|discriminate].
  destruct (hashable cur); simpl; [|discriminate].
  destruct (py_mem cur seen) eqn:Hm; [discriminate|].
  destruct (lookup_node nodes cur) as [n|] eqn:Hl; [|discriminate].
  apply IH. pose proof (count_unseen_step nodes seen cur n Hl Hm). lia.
Qed.

Lemma walk_nodup (fuel : nat) (nodes : list node) (cur : JValue)
    (seen : list JValue) (path p : list entry) (seen' : list JValue) :
  walk fuel nodes cur seen path = Ok (p, seen') -> NoDup seen -> NoDup seen'.
Proof.
  revert cur seen path.
  induction fuel as [|fuel IH]; intros cur seen path H Hnd; simpl in H;
    [discriminate|].
  destruct (truthy cur); simpl in H; [|congruence].
  destruct (hashable cur) eqn:Hh; simpl in H; [|discriminate].
  destruct (py_mem cur seen) eqn:Hm; [congruence|].
  assert (Hnd' : NoDup (cur :: seen)).
  { constructor; [|assumption]. intros Hin.
    rewrite (py_mem_In cur seen Hh Hin) in Hm. discriminate. }
  destruct (lookup_node nodes cur) as [n|]; [|congruence].
  eapply IH; eassumption.
Qed.

Lemma walk_more_fuel (fuel : nat) (nodes : list node) (cur : JValue)
    (seen : list JValue) (path : list entry) :
  walk fuel nodes cur seen path <> OutOfFuel ->
  walk (S fuel) nodes cur seen path = walk fuel nodes cur seen path.
Proof.
  revert cur seen path.
  induction fuel as [|fuel IH]; intros cur seen path H; [now destruct H|].
  cbn [walk] in H |- *.
  destruct (truthy cur); cbn [negb] in *; [|reflexivity].
  destruct (hashable cur); cbn [negb] in *; [|reflexivity].
  destruct (py_mem cur seen); [reflexivity|].
  destruct (lookup_node nodes cur) as [n|]; [|reflexivity].
  apply IH; assumption.
Qed.

Lemma walk_fuel_le (fuel fuel' : nat) (nodes : list node) (cur : JValue)
    (seen : list JValue) (path : list entry) :
  (fuel <= fuel')%nat -> walk fuel nodes cur seen path <> OutOfFuel ->
  walk fuel' nodes cur seen path = walk fuel nodes cur seen path.
Proof.
  induction 1 as [|fuel' Hle IH]; intros H; [reflexivity|].
  rewrite walk_more_fuel; [now apply IH|]. rewrite IH; assumption.
Qed.

Lemma collect_more_fuel (fuel : nat) (nodes : list node) (leaves : list string) :
  collect fuel nodes leaves <> OutOfFuel ->
  collect (S fuel) nodes leaves = collect fuel nodes leaves.
Proof.
  induction leaves as [|leaf leaves IH]; intros H; [reflexivity|].
  cbn [collect] in *.
  destruct (walk fuel nodes (JStr leaf) [] []) as [r|e|] eqn:E;
    cbn [bind] in H; [|..|now destruct H].
  - rewrite walk_more_fuel by congruence. rewrite E. cbn [bind] in *.
    assert (Hc : collect fuel nodes leaves <> OutOfFuel).
    { intros Hc. rewrite Hc in H. now destruct H. }
    rewrite (IH Hc). reflexivity.
  - rewrite walk_more_fuel by congruence. rewrite E. reflexivity.
Qed.

Lemma collect_fuel_le (fuel fuel' : nat) (nodes : list node) (leaves : list string) :
  (fuel <= fuel')%nat -> collect fuel nodes leaves <> OutOfFuel ->
  collect fuel' nodes leaves = collect fuel nodes leaves.
Proof.
  induction 1 as [|fuel' Hle IH]; intros H; [reflexivity|].
  rewrite collect_more_fuel; [now apply IH|]. rewrite IH; assumption.
Qed.

Lemma collect_not_out_of_fuel (fuel : nat) (nodes : list node) (leaves : list string) :
  (List.length nodes < fuel)%nat -> collect fuel nodes leaves <> OutOfFuel.
Proof.
  intros Hf. induction leaves as [|leaf leaves IH]; simpl; [discriminate|].
  pose proof (count_unseen_le nodes []).
  destruct (walk fuel nodes (JStr leaf) [] []) eqn:E; simpl.
  - destruct (collect fuel nodes leaves); simpl; congruence.
  - discriminate.
  - exfalso. apply (walk_not_out_of_fuel fuel nodes (JStr leaf) [] []); [lia|assumption].
Qed.

Lemma build_nodes_length (mapping : list (string * JValue)) (nodes : list node) :
  build_nodes mapping = Ok nodes -> List.length nodes = List.length mapping.
Proof.
  revert nodes. induction mapping as [|[mid data] mapping IH]; simpl; intros nodes H.
  - now injection H as <-.
  - destruct (build_node mid data); simpl in H; try discriminate.
    destruct (build_nodes mapping) as [ns| |]; simpl in H; try discriminate.
    injection H as <-. simpl. now rewrite (IH ns eq_refl).
Qed.

Lemma bind_no_fuel {A B : Type} (m : outcome A) (k : A -> outcome B) :
  m <> OutOfFuel -> (forall a, k a <> OutOfFuel) -> bind m k <> OutOfFuel.
Proof. destruct m; simpl; auto; discriminate. Qed.

Lemma py_get_default_no_fuel (d : JValue) (k : string) (v : JValue) :
  py_get_default d k v <> OutOfFuel.
Proof. destruct d; discriminate. Qed.

Lemma py_iter_no_fuel (v : JValue) : py_iter v <> OutOfFuel.
Proof. destruct v; discriminate. Qed.

Lemma parse_time_no_fuel (v : JValue) : parse_time v <> OutOfFuel.
Proof.
  destruct v; simpl; try discriminate.
  destruct (Z.leb float_overflow_bound (Z.abs n)); discriminate.
Qed.

(** Building the nodes has no loop: it never exhausts the bound. *)
Lemma build_nodes_no_fuel (mapping : list (string * JValue)) :
  build_nodes mapping <> OutOfFuel.
Proof.
  induction mapping as [|[mid data] mapping IH]; simpl; [discriminate|].
  apply bind_no_fuel; [|intros n; apply bind_no_fuel; [assumption|discriminate]].
  unfold build_node, py_get.
  repeat first
    [ apply bind_no_fuel; [|intro]
    | apply py_get_default_no_fuel
    | apply py_iter_no_fuel
    | apply parse_time_no_fuel
    | discriminate
    | match goal with |- context [if ?b then _ else _] => destruct b end ].
Qed.

Lemma reconstruct_threads_fuel_ok (fuel : nat) (mapping : list (string * JValue)) :
  (List.length mapping < fuel)%nat ->
  reconstruct_threads_fuel fuel mapping <> OutOfFuel.
Proof.
  intros Hf. unfold reconstruct_threads_fuel. destruct mapping as [|kv m]; [discriminate|].
  pose proof (build_nodes_no_fuel (kv :: m)) as Hb.
  destruct (build_nodes (kv :: m)) as [nodes| |] eqn:E; simpl; try discriminate;
    [|contradiction].
  apply collect_not_out_of_fuel. rewrite (build_nodes_length _ _ E). assumption.
Qed.

Lemma reconstruct_threads_fuel_le (fuel fuel' : nat) (mapping : list (string * JValue)) :
  (fuel <= fuel')%nat -> reconstruct_threads_fuel fuel mapping <> OutOfFuel ->
  reconstruct_threads_fuel fuel' mapping = reconstruct_threads_fuel fuel mapping.
Proof.
  intros Hle H. unfold reconstruct_threads_fuel in *. destruct mapping; [reflexivity|].
  destruct (build_nodes _); simpl in *; auto.
  now apply collect_fuel_le.
Qed.

(** *** The walk visits the ancestor chain *)

Lemma keep_nonempty_cons (t : list entry) (ts : list (list entry)) :
  keep_nonempty (t :: ts) =
  match t with [] => keep_nonempty ts | _ => t :: keep_nonempty ts end.
Proof. destruct t; reflexivity. Qed.

Lemma walk_chain (fuel : nat) (nodes : list node) (cur : JValue)
    (seen : list JValue) (path p : list entry) (seen' : list JValue) :
  walk fuel nodes cur seen path = Ok (p, seen') ->
  exists vis, ancestor_chain nodes cur seen vis /\
    p = path ++ map entry_of (filter (fun n => truthy (n_role n)) vis).
Proof.
  revert cur seen path.
  induction fuel as [|fuel IH]; intros cur seen path H; cbn [walk] in H;
    [discriminate|].
  destruct (truthy cur) eqn:Et; cbn [negb] in H.
  2:{ injection H as <- <-. exists []. split; [now constructor|].
      now rewrite app_nil_r. }
  destruct (hashable cur) eqn:Eh; cbn [negb] in H; [|discriminate].
  destruct (py_mem cur seen) eqn:Em.
  { injection H as <- <-. exists []. split; [now apply chain_visited|].
    now rewrite app_nil_r. }
  destruct (lookup_node nodes cur) as [n|] eqn:El.
  2:{ injection H as <- <-. exists []. split; [now apply chain_absent|].
      now rewrite app_nil_r. }
  apply IH in H as [vis [Hc ->]]. exists (n :: vis). split.
  - eapply chain_step; eassumption.
  - simpl. destruct (truthy (n_role n)); simpl; [|reflexivity].
    now rewrite <- app_assoc.
Qed.

Lemma collect_chain (fuel : nat) (nodes : list node) (leaves : list string)
    (threads : list (list entry)) :
  collect fuel nodes leaves = Ok threads ->
  exists viss, Forall2 (fun leaf vis => ancestor_chain nodes (JStr leaf) [] vis) leaves viss
    /\ threads = keep_nonempty (map spec_thread viss).
Proof.
  revert threads. induction leaves as [|leaf leaves IH]; intros threads H; simpl in H.
  - injection H as <-. exists []. split; constructor.
  - destruct (walk fuel nodes (JStr leaf) [] []) as [[p seen']| |] eqn:E;
      simpl in H; try discriminate.
    destruct (collect fuel nodes leaves) as [ts| |]; simpl in H; try discriminate.
    injection H as <-. destruct (IH ts eq_refl) as [viss [Hf ->]].
    apply walk_chain in E as [vis [Hc ->]].
    exists (vis :: viss). split; [now constructor|].
    replace (rev ([] ++ map entry_of (filter (fun n => truthy (n_role n)) vis)))
      with (spec_thread vis) by reflexivity.
    change (map spec_thread (vis :: viss)) with (spec_thread vis :: map spec_thread viss).
    rewrite keep_nonempty_cons. destruct (spec_thread vis); reflexivity.
Qed.

End ReconstructorProofs.

(* ================================================================= *)
(** ** Claims about the reconstructor *)

Module ReconstructorClaims.
Import Reconstructor ReconstructorProofs ReconstructorExamples.
Local Open Scope string_scope.

(** Claim C1 (code defect): a null [author] or [content] is not absorbed:
    [msg.get("author", {})] returns [None] for a present null key and the
    following [.get("role")] raises [AttributeError], which aborts the
    whole reconstruction. *)
Theorem reconstruct_threads_null_subfield_raises :
  reconstruct_threads mapping_author_null = Raise AttributeError /\
  reconstruct_threads mapping_content_null = Raise AttributeError.
Proof. split; reflexivity. Qed.

(** Claim C7: the reconstruction terminates on every mapping, including
    cyclic parent links: with one loop iteration more than there are
    nodes, no walk exhausts its bound, more iterations change nothing,
    and each walk visits every id at most once. *)
Theorem reconstruct_threads_terminates (mapping : list (string * JValue)) (fuel : nat) :
  (List.length mapping < fuel)%nat ->
  reconstruct_threads mapping <> OutOfFuel /\
  reconstruct_threads_fuel fuel mapping = reconstruct_threads mapping /\
  (forall nodes leaf path seen,
     build_nodes mapping = Ok nodes ->
     walk fuel nodes (JStr leaf) [] [] = Ok (path, seen) -> NoDup seen).
Proof.
  intros Hf.
  assert (Hok : reconstruct_threads mapping <> OutOfFuel)
    by (apply reconstruct_threads_fuel_ok; lia).
  split; [assumption|]. split.
  - unfold reconstruct_threads. apply reconstruct_threads_fuel_le; [lia|assumption].
  - intros nodes leaf path seen _ Hw. eapply walk_nodup; [eassumption|constructor].
Qed.

Lemma reconstruct_threads_terminates_witness :
  (List.length mapping_cycle < 3)%nat /\
  (reconstruct_threads mapping_cycle <> OutOfFuel /\
   reconstruct_threads_fuel 3 mapping_cycle = reconstruct_threads mapping_cycle /\
   (forall nodes leaf path seen,
      build_nodes mapping_cycle = Ok nodes ->
      walk 3 nodes (JStr leaf) [] [] = Ok (path, seen) -> NoDup seen)).
Proof.
  split; [simpl; lia|].
  apply (reconstruct_threads_terminates mapping_cycle 3). simpl. lia.
Defined.

(** Claim C8 (counterexample): the role test is [if node.get("role")], so a
    node with role [""] is skipped and its thread dropped. *)
Lemma present_role_contributes_counterexample : ~ present_role_contributes.
Proof.
  intros H.
  destruct (H mapping_empty_role []
              [mkNode "a" JNull (JArr []) (JStr EmptyString) EmptyString None]
              (mkNode "a" JNull (JArr []) (JStr EmptyString) EmptyString None))
    as [t [[] _]]; try reflexivity.
  - now left.
  - discriminate.
Qed.

(** Claim C8 (amended): each leaf, in order, walks up through its
    ancestor chain (nodes without a truthy role included); its thread is
    the entries of the nodes with a truthy role, root first; threads with
    no entry are dropped. *)
Theorem reconstruct_threads_role_entries (mapping : list (string * JValue))
    (threads : list (list entry)) :
  reconstruct_threads mapping = Ok threads ->
  exists nodes viss,
    build_nodes mapping = Ok nodes /\
    Forall2 (fun leaf vis => ancestor_chain nodes (JStr leaf) [] vis)
            (leaf_ids nodes) viss /\
    threads = keep_nonempty (map spec_thread viss).
Proof.
  unfold reconstruct_threads, reconstruct_threads_fuel. intros H.
  destruct mapping as [|kv m].
  - injection H as <-. exists [], []. repeat split; constructor.
  - destruct (build_nodes (kv :: m)) as [nodes| |] eqn:E; simpl in H;
      try discriminate.
    apply collect_chain in H as [viss [Hf ->]].
    exists nodes, viss. auto.
Qed.

Lemma reconstruct_threads_role_entries_witness :
  reconstruct_threads mapping_scenario1 = Ok [[mkEntry (JStr "user") "hi" (Some 100)]] /\
  exists nodes viss,
    build_nodes mapping_scenario1 = Ok nodes /\
    Forall2 (fun leaf vis => ancestor_chain nodes (JStr leaf) [] vis)
            (leaf_ids nodes) viss /\
    [[mkEntry (JStr "user") "hi" (Some 100)]] = keep_nonempty (map spec_thread viss).
Proof.
  split; [reflexivity|].
  apply (reconstruct_threads_role_entries mapping_scenario1). reflexivity.
Defined.

End ReconstructorClaims.

(* ================================================================= *)
(** ** Proofs about [split_segments] on the heap *)

Module SegmenterHeapProofs.
Import Segmenter SegmenterHeap.

Lemma frame_refl (s : store) : frame s s.
Proof. split; auto. Qed.

Lemma frame_trans (s1 s2 s3 : store) : frame s1 s2 -> frame s2 s3 -> frame s1 s3.
Proof.
  intros [H1 H1'] [H2 H2']. split; [lia|].
  intros l Hl. rewrite H2' by lia. auto.
Qed.

Lemma alloc_frame (s : store) (o : obj) : frame s (snd (alloc s o)).
Proof.
  split; simpl; [lia|]. intros l Hl.
  destruct (Nat.eqb_spec l (next s)); [lia|reflexivity].
Qed.

Lemma alloc_next (s : store) (o : obj) :
  fst (alloc s o) = next s /\ next (snd (alloc s o)) = S (next s).
Proof. split; reflexivity. Qed.

Lemma append_frame (s0 s s' : store) (lst x : loc) :
  frame s0 s -> (next s0 <= lst)%nat -> append s lst x = Some s' -> frame s0 s'.
Proof.
  unfold append. intros [Hn Hh] Hl H.
  destruct (heap s lst) as [[xs|]|]; try discriminate.
  injection H as <-. split; simpl; [assumption|].
  intros l Hl'. destruct (Nat.eqb_spec l lst); [lia|auto].
Qed.

Lemma scan_heap_frame (gap : Z) (s0 : store) (prev : loc) (rest : list loc)
    (current segments : loc) (s s' : store) :
  frame s0 s -> (next s0 <= current)%nat -> (next s0 <= segments)%nat ->
  scan_heap gap prev rest current segments s = Some s' -> frame s0 s'.
Proof.
  revert prev current s.
  induction rest as [|cur rest IH]; intros prev current s Hf Hc Hs H; simpl in H.
  - destruct (heap s current) as [[[|x xs]|]|]; try discriminate.
    + now injection H as <-.
    + eapply append_frame; eassumption.
  - destruct (read_dict s prev), (read_dict s cur); try discriminate.
    destruct (boundary gap m m0).
    + destruct (append s segments current) as [s1|] eqn:E; [|discriminate].
      pose proof (append_frame s0 s s1 segments current Hf Hs E) as Hf1.
      refine (IH _ _ _ _ _ Hs H).
      * eapply frame_trans; [exact Hf1|apply alloc_frame].
      * simpl. destruct Hf1. lia.
    + destruct (append s current cur) as [s1|] eqn:E; [|discriminate].
      exact (IH _ _ _ (append_frame s0 s s1 current cur Hf Hc E) Hc Hs H).
Qed.

Lemma split_segments_heap_frame_all (gap : Z) (lst : loc) (s : store) (r : loc)
    (s' : store) :
  split_segments_heap gap lst s = Some (r, s') -> frame s s' /\ (next s <= r)%nat.
Proof.
  unfold split_segments_heap. intros H.
  destruct (heap s lst) as [[[|x xs]|]|]; try discriminate.
  - injection H as <- <-. split; [apply alloc_frame|simpl; lia].
  - destruct (read_dicts s (x :: xs)) as [ms|]; [|discriminate].
    destruct (map fst (sort_refs ms)) as [|l0 rest]; [discriminate|].
    simpl in H.
    destruct (scan_heap _ _ _ _ _ _) as [s4|] eqn:E; [|discriminate].
    injection H as <- <-. split; [|simpl; lia].
    eapply scan_heap_frame; [| | |exact E]; simpl; try lia.
    split; simpl; [lia|]. intros l Hl.
    repeat match goal with |- context [Nat.eqb ?a ?b] =>
      destruct (Nat.eqb_spec a b); [lia|] end.
    reflexivity.
Qed.

Lemma read_dicts_some (s : store) (ls : list loc) (ms : list (loc * message)) (x : loc) :
  read_dicts s ls = Some ms -> In x ls -> exists m, heap s x = Some (ODict m).
Proof.
  revert ms. induction ls as [|l ls IH]; intros ms H Hin; [contradiction|].
  simpl in H. unfold read_dict in H.
  destruct (heap s l) as [[|m]|] eqn:El; try discriminate.
  destruct (read_dicts s ls) as [ms'|] eqn:Er; try discriminate.
  destruct Hin as [<-|Hin]; [eauto|]. eapply IH; eauto.
Qed.

Lemma wf_allocated (s : store) (l : loc) (o : obj) :
  wf s -> heap s l = Some o -> (l < next s)%nat.
Proof.
  intros Hwf Hl. destruct (Nat.lt_ge_cases l (next s)) as [|Hge]; [assumption|].
  rewrite (Hwf l Hge) in Hl. discriminate.
Qed.

End SegmenterHeapProofs.

(* ================================================================= *)
(** ** Claim about the effects of [split_segments] *)

Module SegmenterHeapClaims.
Import Segmenter SegmenterHeap SegmenterHeapProofs SegmenterHeapExamples.

(** Claim C10: [split_segments] does not modify its input: the caller's
    list keeps the same message references in the same order, no message
    dict and no other existing object is changed, and the returned list of
    segments is a newly allocated object. *)
Theorem split_segments_no_mutation (gap : Z) (lst : loc) (s : store)
    (xs : list loc) (r : loc) (s' : store) :
  wf s -> heap s lst = Some (OList xs) ->
  split_segments_heap gap lst s = Some (r, s') ->
  heap s' lst = Some (OList xs) /\
  (forall x, In x xs -> heap s' x = heap s x) /\
  (forall l, (l < next s)%nat -> heap s' l = heap s l) /\
  (next s <= r)%nat.
Proof.
  intros Hwf Hl H.
  pose proof (split_segments_heap_frame_all gap lst s r s' H) as [[_ Hfr] Hr].
  assert (Hx : forall x, In x xs -> heap s' x = heap s x).
  { intros x Hin. apply Hfr.
    unfold split_segments_heap in H. rewrite Hl in H.
    destruct xs as [|y ys]; [contradiction|].
    destruct (read_dicts s (y :: ys)) as [ms|] eqn:E; [|discriminate].
    destruct (read_dicts_some s (y :: ys) ms x E Hin) as [m Hm].
    eapply wf_allocated; eassumption. }
  repeat split; auto.
  rewrite Hfr; [assumption|]. eapply wf_allocated; eassumption.
Qed.

Local Open Scope nat_scope.

Lemma split_segments_no_mutation_witness :
  wf ex_store /\ heap ex_store 0 = Some (OList [2; 1]) /\
  match split_segments_heap GAP_SECONDS 0 ex_store with
  | Some (r, s') =>
      heap s' 0 = Some (OList [2; 1]) /\
      (forall x, In x [2; 1]%nat -> heap s' x = heap ex_store x) /\
      (forall l, (l < next ex_store)%nat -> heap s' l = heap ex_store l) /\
      (next ex_store <= r)%nat
  | None => False
  end.
Proof.
  split; [intros [|[|[|l]]] Hl; simpl in *; [lia|lia|lia|reflexivity]|].
  split; [reflexivity|].
  destruct (split_segments_heap GAP_SECONDS 0 ex_store) as [[r s']|] eqn:E.
  - apply (split_segments_no_mutation GAP_SECONDS 0 ex_store [2; 1]%nat r s');
      [intros [|[|[|l]]] Hl; simpl in *; [lia|lia|lia|reflexivity]|reflexivity|exact E].
  - vm_compute in E. discriminate.
Defined.

End SegmenterHeapClaims.

(* ================================================================= *)
(** ** Further properties of [split_segments] *)

Module SegmenterMoreProofs.
Import Segmenter SegmenterProofs.

Lemma sorted_seg_same_role (gap : Z) (x : message) (l : list message) :
  Sorted (seg_rel gap) (x :: l) -> Forall (fun y => m_role y = m_role x) l.
Proof.
  revert x. induction l as [|y l IH]; intros x H; constructor.
  - inversion H as [|? ? Hs Hh]; subst. inversion Hh as [|? ? [_ Hb]]; subst.
    apply orb_false_iff in Hb. destruct Hb as [_ Hr].
    destruct (m_role y) eqn:Ey, (m_role x) eqn:Ex; unfold role_change in Hr;
      rewrite Ex, Ey in Hr; try discriminate; try reflexivity.
    apply negb_false_iff, String.eqb_eq in Hr. now subst.
  - inversion H as [|? ? Hs _]; subst.
    specialize (IH y Hs). assert (Hxy : m_role y = m_role x).
    { inversion H as [|? ? _ Hh]; subst. inversion Hh as [|? ? [_ Hb]]; subst.
      apply orb_false_iff in Hb. destruct Hb as [_ Hr].
      destruct (m_role y) eqn:Ey, (m_role x) eqn:Ex; unfold role_change in Hr;
        rewrite Ex, Ey in Hr; try discriminate; try reflexivity.
      apply negb_false_iff, String.eqb_eq in Hr. now subst. }
    eapply Forall_impl; [|exact IH]. intros z Hz; simpl in Hz. congruence.
Qed.

Lemma count_occ_all_false (l : list bool) :
  (forall x, In x l -> x = false) -> count_occ bool_dec l true = O.
Proof.
  induction l as [|x l IH]; intros H; [reflexivity|].
  rewrite count_occ_cons_neq by (rewrite (H x (or_introl eq_refl)); discriminate).
  apply IH. intros y Hy. apply H. right; exact Hy.
Qed.

Lemma start_flags_count (segs : list (list message)) :
  Forall (fun s => s <> []) segs ->
  count_occ bool_dec (start_flags segs) true = List.length segs.
Proof.
  induction segs as [|s segs IH]; intros H; [reflexivity|].
  inversion H as [|? ? Hs Hr]; subst.
  change (s :: segs) with ([s] ++ segs). rewrite start_flags_app, count_occ_app.
  rewrite (IH Hr). destruct s as [|x t]; [congruence|].
  unfold start_flags; cbn [map List.concat]. rewrite app_nil_r.
  rewrite count_occ_cons_eq by reflexivity.
  rewrite count_occ_all_false; [reflexivity|].
  intros y Hy. apply in_map_iff in Hy. destruct Hy as [? [<- _]]. reflexivity.
Qed.

Lemma split_segments_nonempty (ms : list message) (gap : Z) :
  Forall (fun s => s <> []) (split_segments ms gap).
Proof.
  apply Forall_forall. intros s Hs. exact (proj1 (split_segments_ok ms gap s Hs)).
Qed.

Lemma sort_by_time_nil (ms : list message) : sort_by_time ms = [] <-> ms = [].
Proof.
  split; intros H.
  - pose proof (sort_by_time_perm ms) as P. rewrite H in P.
    now apply Permutation_nil in P.
  - now subst.
Qed.

Lemma time_gap_mono (g1 g2 : Z) (a b : message) :
  g1 <= g2 -> time_gap g2 a b = true -> time_gap g1 a b = true.
Proof.
  unfold time_gap. destruct (m_time a), (m_time b); try discriminate.
  rewrite !Z.ltb_lt. lia.
Qed.

Lemma pair_flags_mono (g1 g2 : Z) (l : list message) (j : nat) :
  g1 <= g2 -> nth_error (pair_flags g2 l) j = Some true ->
  nth_error (pair_flags g1 l) j = Some true.
Proof.
  intros Hg. revert j. induction l as [|a l IH]; intros j H; [destruct j; discriminate|].
  destruct l as [|b l']; [destruct j; discriminate|].
  destruct j as [|j].
  - simpl in *. injection H as H. unfold boundary in *. f_equal.
    apply orb_true_iff in H. apply orb_true_iff.
    destruct H as [H|H]; [left; exact (time_gap_mono g1 g2 a b Hg H)|right; exact H].
  - exact (IH j H).
Qed.

Lemma pair_flags_false (gap : Z) (l : list message) :
  (forall a b, In a l -> In b l -> boundary gap a b = false) ->
  forall x, In x (pair_flags gap l) -> x = false.
Proof.
  induction l as [|a l IH]; intros H x Hx; [destruct Hx|].
  destruct l as [|b l']; [destruct Hx|].
  destruct Hx as [Hx|Hx].
  - subst. apply H; simpl; auto.
  - apply IH; [|exact Hx]. intros a' b' Ha Hb. apply H; right; assumption.
Qed.

Lemma split_segments_length (ms : list message) (gap : Z) :
  List.length (split_segments ms gap) =
  match ms with
  | [] => O
  | _ => S (count_occ bool_dec (pair_flags gap (sort_by_time ms)) true)
  end.
Proof.
  rewrite <- (start_flags_count _ (split_segments_nonempty ms gap)).
  rewrite split_segments_flags.
  destruct ms as [|m ms'].
  - reflexivity.
  - destruct (sort_by_time (m :: ms')) eqn:E.
    + apply (proj1 (sort_by_time_nil _)) in E. discriminate.
    + rewrite <- E. apply count_occ_cons_eq. reflexivity.
Qed.

Lemma key_le_trans : Transitive key_le.
Proof. intros a b c; unfold key_le; lia. Qed.

(** Two key-sorted arrangements of the same messages coincide when no
    two messages share a key. *)
Lemma sorted_perm_unique (l1 l2 : list message) :
  Sorted key_le l1 -> Sorted key_le l2 -> Permutation l1 l2 ->
  NoDup (map time_key l1) -> l1 = l2.
Proof.
  revert l2. induction l1 as [|x l1 IH]; intros l2 S1 S2 P D.
  - symmetry. exact (Permutation_nil P).
  - destruct l2 as [|y l2].
    + apply Permutation_sym, Permutation_nil in P. discriminate.
    + pose proof (Sorted_StronglySorted key_le_trans S1) as T1.
      pose proof (Sorted_StronglySorted key_le_trans S2) as T2.
      apply StronglySorted_inv in T1 as [_ F1]. apply StronglySorted_inv in T2 as [_ F2].
      rewrite Forall_forall in F1, F2.
      assert (Hx : In x (y :: l2)) by (apply (Permutation_in _ P); left; reflexivity).
      assert (Hy : In y (x :: l1))
        by (apply (Permutation_in _ (Permutation_sym P)); left; reflexivity).
      apply NoDup_cons_iff in D as [Dx D].
      assert (Exy : x = y).
      { destruct Hy as [Hy|Hy]; [exact Hy|].
        exfalso. apply Dx. apply in_map_iff. exists y. split; [|exact Hy].
        pose proof (F1 y Hy) as Le1. unfold key_le in Le1.
        destruct Hx as [Hx|Hx]; [rewrite Hx; reflexivity|].
        pose proof (F2 x Hx) as Le2. unfold key_le in Le2. lia. }
      subst y. f_equal. apply IH; [exact (proj1 (Sorted_inv S1)) | exact (proj1 (Sorted_inv S2)) | |exact D].
      exact (Permutation_cons_inv P).
Qed.

End SegmenterMoreProofs.

Module SegmenterExtras.
Import Segmenter SegmenterProofs SegmenterMoreProofs SegmenterExamples.

(** For inputs without NaN times, every segment of [split_segments] is
    non-empty, is in non-decreasing order of the sort key ([time], absent
    read as 0), and all its messages have the same [role]. *)
Theorem split_segments_segment_shape (ms : list message) (gap : Z) (s : list message) :
  In s (split_segments ms gap) ->
  s <> [] /\ Sorted key_le s /\
  (forall a b, In a s -> In b s -> m_role a = m_role b).
Proof.
  intros H. destruct (split_segments_ok ms gap s H) as [Hne Hs].
  split; [exact Hne|]. split.
  - exact (sorted_weaken (seg_rel gap) key_le s (fun a b Hab => proj1 Hab) Hs).
  - destruct s as [|x l]; [congruence|].
    pose proof (sorted_seg_same_role gap x l Hs) as HF.
    rewrite Forall_forall in HF.
    assert (Hx : forall a, In a (x :: l) -> m_role a = m_role x).
    { intros a [Ha|Ha]; [now subst|exact (HF a Ha)]. }
    intros a b Ha Hb. rewrite (Hx a Ha), (Hx b Hb). reflexivity.
Qed.

Lemma split_segments_segment_shape_witness :
  In [ex_sort_a; ex_sort_d; ex_sort_b] (split_segments ex_sort_thread GAP_SECONDS) /\
  [ex_sort_a; ex_sort_d; ex_sort_b] <> [] /\
  Sorted key_le [ex_sort_a; ex_sort_d; ex_sort_b] /\
  (forall a b, In a [ex_sort_a; ex_sort_d; ex_sort_b] ->
     In b [ex_sort_a; ex_sort_d; ex_sort_b] -> m_role a = m_role b).
Proof.
  assert (H : In [ex_sort_a; ex_sort_d; ex_sort_b]
                (split_segments ex_sort_thread GAP_SECONDS))
    by (vm_compute; left; reflexivity).
  split; [exact H|]. exact (split_segments_segment_shape _ _ _ H).
Defined.

(** [split_segments] returns no segment for an empty list, and otherwise
    one segment plus one more for each consecutive pair of the sorted list
    with a time gap or a role change. *)
Theorem split_segments_count (ms : list message) (gap : Z) :
  List.length (split_segments ms gap) =
  match ms with
  | [] => O
  | _ => S (count_occ bool_dec (pair_flags gap (sort_by_time ms)) true)
  end.
Proof. exact (split_segments_length ms gap). Qed.

(** A larger [gap_seconds] only merges segments: every message that
    starts a segment with the larger gap also starts one with a smaller
    gap, so there are never more segments with the larger gap. *)
Theorem split_segments_gap_monotone (ms : list message) (g1 g2 : Z) (j : nat) :
  g1 <= g2 ->
  starts_segment (split_segments ms g2) j -> starts_segment (split_segments ms g1) j.
Proof.
  unfold starts_segment. rewrite !split_segments_flags. intros Hg.
  destruct (sort_by_time ms); [destruct j; discriminate|].
  destruct j as [|j]; [tauto|]. exact (pair_flags_mono g1 g2 _ j Hg).
Qed.

Lemma split_segments_gap_monotone_witness :
  starts_segment (split_segments ex_thread GAP_SECONDS) 1 /\
  starts_segment (split_segments ex_thread 0) 1.
Proof.
  assert (H : starts_segment (split_segments ex_thread GAP_SECONDS) 1)
    by (vm_compute; reflexivity).
  split; [exact H|].
  apply (split_segments_gap_monotone ex_thread 0 GAP_SECONDS 1%nat);
    [unfold GAP_SECONDS; lia | exact H].
Defined.

(** A non-empty message list without NaN times, in which every two
    messages have the same role and no two known times lie more than [gap]
    seconds apart, comes back as a single segment: the list sorted by
    time. *)
Theorem split_segments_single (ms : list message) (gap : Z) :
  ms <> [] ->
  (forall a b, In a ms -> In b ms -> m_role a = m_role b) ->
  (forall a b ta tb, In a ms -> In b ms -> m_time a = Some ta -> m_time b = Some tb ->
     tb - ta <= gap) ->
  split_segments ms gap = [sort_by_time ms].
Proof.
  intros Hne Hr Ht.
  assert (Hb : forall a b, In a (sort_by_time ms) -> In b (sort_by_time ms) ->
                 boundary gap a b = false).
  { intros a b Ha Hb.
    apply (Permutation_in _ (sort_by_time_perm ms)) in Ha.
    apply (Permutation_in _ (sort_by_time_perm ms)) in Hb.
    unfold boundary, time_gap. apply orb_false_iff. split.
    - destruct (m_time a) as [ta|] eqn:Ea, (m_time b) as [tb|] eqn:Eb; try reflexivity.
      apply Z.ltb_ge. exact (Ht a b ta tb Ha Hb Ea Eb).
    - destruct (role_change a b) eqn:E; [|reflexivity].
      apply role_change_spec in E. exfalso. exact (E (Hr a b Ha Hb)). }
  pose proof (split_segments_length ms gap) as HL.
  rewrite (count_occ_all_false _ (pair_flags_false gap _ Hb)) in HL.
  destruct ms as [|m ms']; [congruence|].
  pose proof (split_segments_concat (m :: ms') gap) as HC.
  destruct (split_segments (m :: ms') gap) as [|s [|s' r]]; try discriminate.
  simpl in HC. rewrite app_nil_r in HC. now subst.
Qed.

Lemma split_segments_single_witness :
  [ex_sort_b; ex_sort_a; ex_sort_d] <> [] /\
  split_segments [ex_sort_b; ex_sort_a; ex_sort_d] GAP_SECONDS =
    [sort_by_time [ex_sort_b; ex_sort_a; ex_sort_d]] /\
  sort_by_time [ex_sort_b; ex_sort_a; ex_sort_d] = [ex_sort_a; ex_sort_d; ex_sort_b].
Proof.
  split; [discriminate|]. split; [|reflexivity].
  apply split_segments_single; [discriminate| |].
  - intros a b Ha Hb.
    destruct Ha as [<-|[<-|[<-|[]]]]; destruct Hb as [<-|[<-|[<-|[]]]]; reflexivity.
  - intros a b ta tb Ha Hb Ea Eb.
    destruct Ha as [<-|[<-|[<-|[]]]]; destruct Hb as [<-|[<-|[<-|[]]]];
      simpl in Ea, Eb; try discriminate;
      injection Ea as <-; injection Eb as <-; unfold GAP_SECONDS; lia.
Defined.

(** For inputs without NaN times in which no two messages share a sort
    key, [split_segments] does not depend on the order of its input: any
    rearrangement of the messages gives the same segments. *)
Theorem split_segments_order_independent (ms1 ms2 : list message) (gap : Z) :
  Permutation ms1 ms2 -> NoDup (map time_key ms1) ->
  split_segments ms1 gap = split_segments ms2 gap.
Proof.
  intros P D.
  assert (E : sort_by_time ms1 = sort_by_time ms2).
  { apply sorted_perm_unique; [apply sort_by_time_sorted|apply sort_by_time_sorted| |].
    - exact (Permutation_trans (sort_by_time_perm ms1)
               (Permutation_trans P (Permutation_sym (sort_by_time_perm ms2)))).
    - exact (Permutation_NoDup (Permutation_map time_key (Permutation_sym
               (sort_by_time_perm ms1))) D). }
  unfold split_segments. rewrite E.
  destruct ms1, ms2; try reflexivity;
    apply Permutation_length in P; discriminate.
Qed.

Lemma split_segments_order_independent_witness :
  split_segments [ex_gap_b; ex_gap_a] GAP_SECONDS = split_segments [ex_gap_a; ex_gap_b] GAP_SECONDS.
Proof.
  apply split_segments_order_independent; [apply perm_swap|].
  apply NoDup_cons; [vm_compute; intros [H|[]]; discriminate|].
  apply NoDup_cons; [intros []|apply NoDup_nil].
Defined.

End SegmenterExtras.

(* ================================================================= *)
(** ** Further properties of [reconstruct_threads] *)

Module ReconstructorMoreProofs.
Import Reconstructor ReconstructorProofs.

Lemma bind_ok {A B : Type} (m : outcome A) (k : A -> outcome B) (b : B) :
  bind m k = Ok b -> exists a, m = Ok a /\ k a = Ok b.
Proof. destruct m; simpl; intros H; try discriminate. eauto. Qed.

Lemma build_node_id (mid : string) (data : JValue) (n : node) :
  build_node mid data = Ok n -> n_id n = mid.
Proof.
  unfold build_node. intros H.
  repeat (apply bind_ok in H; destruct H as [? [_ H]]).
  injection H as <-. reflexivity.
Qed.

Lemma build_nodes_in (mapping : list (string * JValue)) (nodes : list node) (n : node) :
  build_nodes mapping = Ok nodes -> In n nodes ->
  exists data, In (n_id n, data) mapping /\ build_node (n_id n) data = Ok n.
Proof.
  revert nodes. induction mapping as [|[mid data] mapping IH]; intros nodes H Hn.
  - injection H as <-. destruct Hn.
  - simpl in H. apply bind_ok in H as [n0 [E0 H]].
    apply bind_ok in H as [ns [Ens H]]. injection H as <-.
    destruct Hn as [<-|Hn].
    + exists data. rewrite (build_node_id _ _ _ E0). split; [left; reflexivity|exact E0].
    + destruct (IH ns Ens Hn) as [d [Hd Eb]]. exists d. split; [right; exact Hd|exact Eb].
Qed.

Lemma build_nodes_raise (pre post : list (string * JValue)) (ns : list node)
    (mid : string) (data : JValue) (e : exn) :
  build_nodes pre = Ok ns -> build_node mid data = Raise e ->
  build_nodes (pre ++ (mid, data) :: post) = Raise e.
Proof.
  revert ns. induction pre as [|[m d] pre IH]; intros ns Hp He.
  - cbn [build_nodes app]. rewrite He. reflexivity.
  - cbn [build_nodes] in Hp. apply bind_ok in Hp as [n0 [E0 Hp]].
    apply bind_ok in Hp as [ns' [Ens _]].
    cbn [build_nodes app]. rewrite E0. cbn [bind]. rewrite (IH ns' Ens He). reflexivity.
Qed.

Lemma reconstruct_threads_raise (pre post : list (string * JValue)) (ns : list node)
    (mid : string) (data : JValue) (e : exn) :
  build_nodes pre = Ok ns -> build_node mid data = Raise e ->
  reconstruct_threads (pre ++ (mid, data) :: post) = Raise e.
Proof.
  intros Hp He. unfold reconstruct_threads, reconstruct_threads_fuel.
  destruct (pre ++ (mid, data) :: post) as [|x l] eqn:E; [destruct pre; discriminate|].
  rewrite <- E, (build_nodes_raise pre post ns mid data e Hp He). reflexivity.
Qed.

Lemma py_mem_cons (v w : JValue) (seen : list JValue) :
  py_mem v (w :: seen) = py_eq v w || py_mem v seen.
Proof. reflexivity. Qed.

Lemma chain_nodes (nodes : list node) (cur : JValue) (seen : list JValue) (vis : list node) :
  ancestor_chain nodes cur seen vis ->
  NoDup (map n_id vis) /\
  (forall n, In n vis -> py_mem (JStr (n_id n)) seen = false /\ In n nodes).
Proof.
  induction 1 as [| | |cur seen n vis Ht Hh Hm Hl Hc [IHd IHi]].
  1-3: split; [constructor|intros ? []].
  apply lookup_node_some in Hl as [-> Hin].
  split.
  - simpl. constructor; [|exact IHd].
    intros Hx. apply in_map_iff in Hx as [n' [Eid Hn']].
    destruct (IHi n' Hn') as [Hm' _]. rewrite py_mem_cons, Eid in Hm'.
    simpl in Hm'. rewrite String.eqb_refl in Hm'. discriminate.
  - intros n' [<-|Hn'].
    + split; [exact Hm|exact Hin].
    + destruct (IHi n' Hn') as [Hm' Hi']. rewrite py_mem_cons in Hm'.
      apply orb_false_iff in Hm'. split; [exact (proj2 Hm')|exact Hi'].
Qed.

(** Keeping only some visited nodes keeps their ids distinct. *)
Lemma filter_ids_nodup (keep : node -> bool) (vis : list node) :
  NoDup (map n_id vis) -> NoDup (map n_id (filter keep vis)).
Proof.
  induction vis as [|n vis IH]; cbn [map filter]; intros Hd; [exact Hd|].
  apply NoDup_cons_iff in Hd as [Hn Hd].
  destruct (keep n); cbn [map]; [|exact (IH Hd)].
  apply NoDup_cons; [|exact (IH Hd)].
  rewrite in_map_iff. intros [m [Em Hm]]. apply filter_In in Hm.
  apply Hn, in_map_iff. exists m. split; [exact Em|exact (proj1 Hm)].
Qed.

Lemma forall2_in_right {A B : Type} (P : A -> B -> Prop) (l1 : list A) (l2 : list B) (y : B) :
  Forall2 P l1 l2 -> In y l2 -> exists x, In x l1 /\ P x y.
Proof.
  induction 1 as [|x y' l1 l2 Hp Hf IH]; intros Hy; [destruct Hy|].
  destruct Hy as [<-|Hy].
  - exists x. split; [left; reflexivity|exact Hp].
  - destruct (IH Hy) as [x' [Hx' Hp']]. exists x'. split; [right; exact Hx'|exact Hp'].
Qed.

Lemma keep_nonempty_in (t : list entry) (ts : list (list entry)) :
  In t (keep_nonempty ts) -> In t ts /\ t <> [].
Proof.
  unfold keep_nonempty. intros H. apply filter_In in H as [H1 H2].
  split; [exact H1|]. destruct t; [discriminate|congruence].
Qed.

Lemma keep_nonempty_length (ts : list (list entry)) :
  (List.length (keep_nonempty ts) <= List.length ts)%nat.
Proof. apply filter_length_le. Qed.

(** A thread of [reconstruct_threads] consists of the entries of distinct
    nodes, each built from an item of the mapping and with a truthy role. *)
Lemma threads_from_nodes (mapping : list (string * JValue))
    (threads : list (list entry)) (t : list entry) :
  reconstruct_threads mapping = Ok threads -> In t threads ->
  exists ns, t = map entry_of ns /\ ns <> [] /\ NoDup (map n_id ns) /\
    Forall (fun n => truthy (n_role n) = true /\
                     exists data, In (n_id n, data) mapping /\
                                  build_node (n_id n) data = Ok n) ns.
Proof.
  unfold reconstruct_threads, reconstruct_threads_fuel. intros H Ht.
  destruct mapping as [|kv mapping'] eqn:Em.
  - injection H as <-. destruct Ht.
  - rewrite <- Em in H |- *. apply bind_ok in H as [nodes [Hn Hc]].
    apply collect_chain in Hc as [viss [Hf ->]].
    apply keep_nonempty_in in Ht as [Ht Hne].
    apply in_map_iff in Ht as [vis [<- Hv]].
    destruct (forall2_in_right _ _ _ _ Hf Hv) as [leaf [_ Hch]].
    destruct (chain_nodes _ _ _ _ Hch) as [Hd Hi].
    exists (rev (filter (fun n => truthy (n_role n)) vis)).
    split; [unfold spec_thread; symmetry; apply map_rev|].
    split; [intros E; apply Hne; unfold spec_thread; rewrite <- map_rev, E; reflexivity|].
    split; [rewrite map_rev; apply NoDup_rev, filter_ids_nodup, Hd|].
    apply Forall_forall. intros n Hn'. apply in_rev, filter_In in Hn' as [Hn' Hr].
    split; [exact Hr|]. exact (build_nodes_in _ _ _ Hn (proj2 (Hi n Hn'))).
Qed.

End ReconstructorMoreProofs.

Module ReconstructorExtras.
Import Reconstructor ReconstructorProofs ReconstructorMoreProofs ReconstructorExamples.

(** Every thread of [reconstruct_threads] is non-empty and lists the
    entries of distinct nodes, each built from an item of the mapping and
    with a truthy role. *)
Theorem reconstruct_threads_thread_entries (mapping : list (string * JValue))
    (threads : list (list entry)) (t : list entry) :
  reconstruct_threads mapping = Ok threads -> In t threads ->
  exists ns, t = map entry_of ns /\ ns <> [] /\ NoDup (map n_id ns) /\
    Forall (fun n => truthy (n_role n) = true /\
                     exists data, In (n_id n, data) mapping /\
                                  build_node (n_id n) data = Ok n) ns.
Proof. exact (threads_from_nodes mapping threads t). Qed.


Lemma reconstruct_threads_thread_entries_witness :
  reconstruct_threads mapping_cycle = Ok [cycle_thread] /\ In cycle_thread [cycle_thread] /\
  exists ns, cycle_thread = map entry_of ns /\ ns <> [] /\ NoDup (map n_id ns) /\
    Forall (fun n => truthy (n_role n) = true /\
                     exists data, In (n_id n, data) mapping_cycle /\
                                  build_node (n_id n) data = Ok n) ns.
Proof.
  assert (H : reconstruct_threads mapping_cycle = Ok [cycle_thread])
    by (vm_compute; reflexivity).
  split; [exact H|]. split; [left; reflexivity|].
  exact (reconstruct_threads_thread_entries mapping_cycle [cycle_thread] cycle_thread
           H (or_introl eq_refl)).
Defined.

(** [reconstruct_threads] returns at most one thread per item of the
    mapping, and no thread has more entries than the mapping has items. *)
Theorem reconstruct_threads_bounds (mapping : list (string * JValue))
    (threads : list (list entry)) :
  reconstruct_threads mapping = Ok threads ->
  (List.length threads <= List.length mapping)%nat /\
  Forall (fun t => (List.length t <= List.length mapping)%nat) threads.
Proof.
  intros H. split.
  - unfold reconstruct_threads, reconstruct_threads_fuel in H.
    destruct mapping as [|kv mapping'] eqn:Em; [injection H as <-; simpl; lia|].
    rewrite <- Em in H |- *. apply bind_ok in H as [nodes [Hn Hc]].
    apply collect_chain in Hc as [viss [Hf ->]].
    rewrite <- (build_nodes_length _ _ Hn).
    eapply Nat.le_trans; [apply keep_nonempty_length|].
    rewrite length_map, <- (Forall2_length Hf). unfold leaf_ids.
    rewrite length_map. apply filter_length_le.
  - apply Forall_forall. intros t Ht.
    destruct (threads_from_nodes _ _ _ H Ht) as [ns [-> [_ [Hd Hf]]]].
    rewrite length_map, <- (length_map n_id ns), <- (length_map fst mapping).
    apply (NoDup_incl_length Hd). intros id Hid.
    apply in_map_iff in Hid as [n [<- Hn]]. rewrite Forall_forall in Hf.
    destruct (Hf n Hn) as [_ [data [Hin _]]].
    apply in_map_iff. exists (n_id n, data). split; [reflexivity|exact Hin].
Qed.

Lemma reconstruct_threads_bounds_witness :
  reconstruct_threads mapping_cycle = Ok [cycle_thread] /\
  (List.length [cycle_thread] <= List.length mapping_cycle)%nat /\
  Forall (fun t => (List.length t <= List.length mapping_cycle)%nat) [cycle_thread].
Proof.
  assert (H : reconstruct_threads mapping_cycle = Ok [cycle_thread])
    by (vm_compute; reflexivity).
  split; [exact H|]. exact (reconstruct_threads_bounds mapping_cycle [cycle_thread] H).
Defined.

(** An item of the mapping whose value is not a dict (null, a boolean, a
    number, a string or a list) makes [reconstruct_threads] raise
    [AttributeError] ([data.get] on a non-dict), whatever follows it,
    provided the items before it are well formed. *)
Theorem reconstruct_threads_non_dict_item (pre post : list (string * JValue))
    (ns : list node) (mid : string) (data : JValue) :
  build_nodes pre = Ok ns -> (forall o, data <> JObj o) ->
  reconstruct_threads (pre ++ (mid, data) :: post) = Raise AttributeError.
Proof.
  intros Hp Hd. apply (reconstruct_threads_raise pre post ns mid data _ Hp).
  destruct data; try reflexivity. exfalso. exact (Hd o eq_refl).
Qed.

Lemma reconstruct_threads_non_dict_item_witness :
  reconstruct_threads (mapping_scenario1 ++ [("b"%string, JStr "x"%string)]) =
    Raise AttributeError.
Proof.
  destruct (build_nodes mapping_scenario1) as [ns| |] eqn:E;
    [|vm_compute in E; discriminate|vm_compute in E; discriminate].
  apply (reconstruct_threads_non_dict_item mapping_scenario1 [] ns); [exact E|].
  intros o Ho. discriminate.
Defined.

(** A message whose [create_time] is an integer too large for a float
    ([|n| >= 2^1024 - 2^970]) makes [float(ts)] raise [OverflowError],
    which the [except (TypeError, ValueError)] clause does not catch. So
    [reconstruct_threads] raises [OverflowError], whatever follows that
    item, provided the items before it are well formed and the reads of
    that item before [create_time] succeed: its [author] and [content],
    where present, are dicts, and its [parts], where present, is falsy or
    iterable. *)
Theorem reconstruct_threads_time_overflow (pre post : list (string * JValue))
    (ns : list node) (mid : string) (o mo : list (string * JValue)) (n : Z) :
  build_nodes pre = Ok ns ->
  assoc o "message" = Some (JObj mo) ->
  assoc mo "create_time" = Some (JNum n) ->
  float_overflow_bound <= Z.abs n ->
  (forall v, assoc mo "author" = Some v -> exists ao, v = JObj ao) ->
  (forall v, assoc mo "content" = Some v ->
     exists co, v = JObj co /\
       forall p, assoc co "parts" = Some p ->
         exists items, py_iter (py_or p (JArr [])) = Ok items) ->
  reconstruct_threads (pre ++ (mid, JObj o) :: post) = Raise OverflowError.
Proof.
  intros Hp Hm Hct Hn Ha Hc. apply (reconstruct_threads_raise pre post ns mid _ _ Hp).
  assert (Hmo : py_or (JObj mo) (JObj []) = JObj mo)
    by (destruct mo; [discriminate|reflexivity]).
  assert (Hau : exists ao, py_get_default (JObj mo) "author" (JObj []) = Ok (JObj ao)).
  { cbn [py_get_default]. destruct (assoc mo "author") as [v|] eqn:E.
    - destruct (Ha v eq_refl) as [ao ->]. exists ao. reflexivity.
    - exists []. reflexivity. }
  assert (Hco : exists co items, py_get_default (JObj mo) "content" (JObj []) = Ok (JObj co) /\
            py_iter (py_or (match assoc co "parts" with Some v => v | None => JNull end)
                       (JArr [])) = Ok items).
  { cbn [py_get_default]. destruct (assoc mo "content") as [v|] eqn:E.
    - destruct (Hc v eq_refl) as [co [-> Hparts]]. exists co.
      destruct (assoc co "parts") as [p|] eqn:Ep.
      + destruct (Hparts p eq_refl) as [items Hi]. exists items. split; [reflexivity|exact Hi].
      + exists []. split; reflexivity.
    - exists [], []. split; reflexivity. }
  destruct Hau as [ao Hau]. destruct Hco as [co [items [Hco Hi]]].
  unfold build_node, py_get. cbn [py_get_default bind]. rewrite Hm. cbn [bind].
  rewrite Hmo, Hau, Hco. cbn [py_get_default bind].
  rewrite Hi. cbn [py_get_default bind]. rewrite Hct. cbn [is_none bind].
  unfold parse_time. apply Z.leb_le in Hn. rewrite Hn. reflexivity.
Qed.

Lemma reconstruct_threads_time_overflow_witness :
  build_nodes mapping_scenario1 <> Raise AttributeError /\
  reconstruct_threads
    (mapping_scenario1 ++
     [("z"%string, JObj [("parent"%string, JNull); ("children"%string, JArr []);
        ("message"%string,
         JObj [("author"%string, JObj [("role"%string, JStr "user"%string)]);
               ("content"%string, JObj [("parts"%string, JArr [JStr "hi"%string])]);
               ("create_time"%string, JNum (2 ^ 1024))])])])
  = Raise OverflowError.
Proof.
  destruct (build_nodes mapping_scenario1) as [ns| |] eqn:E;
    [|vm_compute in E; discriminate|vm_compute in E; discriminate].
  split; [discriminate|].
  apply (reconstruct_threads_time_overflow mapping_scenario1 [] ns "z"%string _
           [("author"%string, JObj [("role"%string, JStr "user"%string)]);
            ("content"%string, JObj [("parts"%string, JArr [JStr "hi"%string])]);
            ("create_time"%string, JNum (2 ^ 1024))] (2 ^ 1024));
    [exact E|reflexivity|reflexivity| | |].
  - unfold float_overflow_bound. vm_compute. discriminate.
  - intros v Hv. injection Hv as <-. eexists. reflexivity.
  - intros v Hv. injection Hv as <-. eexists. split; [reflexivity|].
    intros p Hp. injection Hp as <-. eexists. reflexivity.
Defined.

End ReconstructorExtras.

(* ================================================================= *)
(** ** Properties of [format_time] and [save_segments] *)

Module OutputProofs.
Import Reconstructor Output.
Local Open Scope string_scope.

Lemma string_app_cancel (a b c : string) : a ++ b = a ++ c -> b = c.
Proof. induction a as [|x a IH]; simpl; intros H; [exact H|injection H as H; auto]. Qed.

Lemma las_app (a b : string) :
  list_ascii_of_string (a ++ b) = (list_ascii_of_string a ++ list_ascii_of_string b)%list.
Proof. induction a as [|x a IH]; simpl; [reflexivity|now rewrite IH]. Qed.

Lemma digits_value_app (acc : Z) (l1 l2 : list ascii) :
  digits_value acc (l1 ++ l2) =
  match digits_value acc l1 with Some v => digits_value v l2 | None => None end.
Proof.
  revert acc. induction l1 as [|c l1 IH]; intros acc; simpl; [reflexivity|].
  destruct (_ && _); [apply IH|reflexivity].
Qed.

Lemma zeros_value (k : nat) : digits_value 0 (list_ascii_of_string (zeros k)) = Some 0.
Proof. induction k as [|k IH]; [reflexivity|exact IH]. Qed.

Lemma digit_step (acc : Z) (k : nat) (s : string) :
  (k < 10)%nat ->
  digits_value acc (list_ascii_of_string (String (ascii_of_nat (48 + k)) s)) =
  digits_value (acc * 10 + Z.of_nat k) (list_ascii_of_string s).
Proof. intros Hk. do 10 (destruct k as [|k]; [reflexivity|]). lia. Qed.

Lemma uint_value_acc (u : Decimal.uint) (p : positive) :
  digits_value (Z.pos p) (list_ascii_of_string (string_of_uint u)) =
  Some (Z.pos (Pos.of_uint_acc u p)).
Proof.
  revert p. induction u; intros p; [reflexivity| ..];
  cbn [string_of_uint string_of_digit append Pos.of_uint_acc];
  rewrite digit_step by lia;
  match goal with
  | |- _ = Some (Z.pos (Pos.of_uint_acc u ?q)) => rewrite <- (IHu q)
  end; f_equal; lia.
Qed.

Lemma uint_value (u : Decimal.uint) :
  digits_value 0 (list_ascii_of_string (string_of_uint u)) = Some (Z.of_N (Pos.of_uint u)).
Proof.
  induction u; [reflexivity| ..];
    cbn [string_of_uint string_of_digit append]; rewrite digit_step by lia.
  - exact IHu.
  - exact (uint_value_acc u 1).
  - exact (uint_value_acc u 2).
  - exact (uint_value_acc u 3).
  - exact (uint_value_acc u 4).
  - exact (uint_value_acc u 5).
  - exact (uint_value_acc u 6).
  - exact (uint_value_acc u 7).
  - exact (uint_value_acc u 8).
  - exact (uint_value_acc u 9).
Qed.

Lemma string_of_Z_value (n : Z) :
  0 <= n -> digits_value 0 (list_ascii_of_string (string_of_Z n)) = Some n.
Proof.
  intros Hn. destruct n as [|p|p]; [reflexivity| |lia].
  change (string_of_Z (Z.pos p)) with (string_of_uint (Pos.to_uint p)).
  rewrite uint_value, DecimalPos.Unsigned.of_to. reflexivity.
Qed.

Lemma format_0d_nonneg (w : nat) (n : Z) :
  0 <= n -> format_0d w n = zeros (w - String.length (string_of_Z n)) ++ string_of_Z n.
Proof.
  intros Hn. unfold format_0d. rewrite (proj2 (Z.ltb_ge n 0) Hn), Z.abs_eq by exact Hn.
  reflexivity.
Qed.

Lemma format_0d_value (w : nat) (n : Z) :
  0 <= n -> digits_value 0 (list_ascii_of_string (format_0d w n)) = Some n.
Proof.
  intros Hn. rewrite (format_0d_nonneg w n Hn), las_app, digits_value_app, zeros_value.
  exact (string_of_Z_value n Hn).
Qed.

Lemma all_digits_app (a b : string) : all_digits (a ++ b) = all_digits a && all_digits b.
Proof.
  induction a as [|c a IH]; simpl; [reflexivity|]. rewrite IH. apply andb_assoc.
Qed.

Lemma zeros_digits (k : nat) : all_digits (zeros k) = true.
Proof. induction k as [|k IH]; [reflexivity|exact IH]. Qed.

Lemma uint_digits (u : Decimal.uint) : all_digits (string_of_uint u) = true.
Proof. induction u; [reflexivity| ..]; exact IHu. Qed.

Lemma format_0d_digits (w : nat) (n : Z) : 0 <= n -> all_digits (format_0d w n) = true.
Proof.
  intros Hn. rewrite (format_0d_nonneg w n Hn), all_digits_app, zeros_digits.
  destruct n as [|p|p]; [reflexivity| |lia]. exact (uint_digits (Pos.to_uint p)).
Qed.

Lemma digits_split (a1 a2 : string) (x1 x2 : ascii) (r1 r2 : string) :
  all_digits a1 = true -> all_digits a2 = true -> is_digit x1 = false -> is_digit x2 = false ->
  a1 ++ String x1 r1 = a2 ++ String x2 r2 -> a1 = a2 /\ r1 = r2.
Proof.
  revert a2. induction a1 as [|c a1 IH]; intros [|c' a2] H1 H2 Hx1 Hx2 E; simpl in *.
  - injection E as _ E. split; [reflexivity|exact E].
  - injection E as -> _. apply andb_true_iff in H2 as [H2 _]. congruence.
  - injection E as -> _. apply andb_true_iff in H1 as [H1 _]. congruence.
  - injection E as -> E. apply andb_true_iff in H1 as [_ H1].
    apply andb_true_iff in H2 as [_ H2].
    destruct (IH a2 H1 H2 Hx1 Hx2 E) as [-> ->]. split; reflexivity.
Qed.

Lemma format_0d_inj (w1 w2 : nat) (n1 n2 : Z) :
  0 <= n1 -> 0 <= n2 -> format_0d w1 n1 = format_0d w2 n2 -> n1 = n2.
Proof.
  intros H1 H2 E.
  apply (f_equal (fun s => digits_value 0 (list_ascii_of_string s))) in E.
  rewrite (format_0d_value w1 n1 H1), (format_0d_value w2 n2 H2) in E. congruence.
Qed.

(** The digits of [format_0d] end before the ["_"] or ["."] that follows. *)
Lemma format_0d_split (w1 w2 : nat) (n1 n2 : Z) (x : ascii) (r1 r2 : string) :
  0 <= n1 -> 0 <= n2 -> is_digit x = false ->
  format_0d w1 n1 ++ String x r1 = format_0d w2 n2 ++ String x r2 -> n1 = n2 /\ r1 = r2.
Proof.
  intros H1 H2 Hx E.
  destruct (digits_split _ _ _ _ _ _ (format_0d_digits w1 n1 H1) (format_0d_digits w2 n2 H2)
              Hx Hx E) as [Ea Er].
  split; [exact (format_0d_inj w1 w2 n1 n2 H1 H2 Ea)|exact Er].
Qed.

Lemma segment_filename_inj (c1 t1 s1 c2 t2 s2 : Z) :
  0 <= c1 -> 0 <= t1 -> 0 <= s1 -> 0 <= c2 -> 0 <= t2 -> 0 <= s2 ->
  segment_filename c1 t1 s1 = segment_filename c2 t2 s2 -> c1 = c2 /\ t1 = t2 /\ s1 = s2.
Proof.
  intros Hc1 Ht1 Hs1 Hc2 Ht2 Hs2 E. unfold segment_filename in E.
  apply string_app_cancel in E.
  destruct (format_0d_split 3 3 c1 c2 "_" _ _ Hc1 Hc2 eq_refl E) as [Ec E1].
  apply (string_app_cancel "thread") in E1.
  destruct (format_0d_split 2 2 t1 t2 "_" _ _ Ht1 Ht2 eq_refl E1) as [Et E2].
  apply (string_app_cancel "seg") in E2.
  destruct (format_0d_split 2 2 s1 s2 "." _ _ Hs1 Hs2 eq_refl E2) as [Es _].
  split; [exact Ec|split; [exact Et|exact Es]].
Qed.

Lemma segment_path_inj (d : string) (c t s1 s2 : Z) :
  0 <= s1 -> 0 <= s2 ->
  path_join d (segment_filename c t s1) = path_join d (segment_filename c t s2) -> s1 = s2.
Proof.
  intros H1 H2. unfold path_join.
  assert (Hs : forall s, starts_with_sep (segment_filename c t s) = false)
    by reflexivity.
  rewrite !Hs. intros E. assert (E' : segment_filename c t s1 = segment_filename c t s2).
  { destruct (_ || _).
    - exact (string_app_cancel _ _ _ E).
    - apply string_app_cancel in E. exact (string_app_cancel "/" _ _ E). }
  clear E. unfold segment_filename in E'.
  do 5 apply string_app_cancel in E'.
  exact (proj1 (format_0d_split 2 2 s1 s2 "." _ _ H1 H2 eq_refl E')).
Qed.

Lemma save_from_other (ft : Q -> option string) (title : string) (c t : Z) (d : string)
    (s0 : Z) (segs : list (list entry)) (f : fs) (p : string) :
  (forall i, (i < List.length segs)%nat ->
     p <> path_join d (segment_filename c t (s0 + Z.of_nat i))) ->
  save_from ft title c t d s0 segs f p = f p.
Proof.
  revert s0 f. induction segs as [|seg segs IH]; intros s0 f H; [reflexivity|].
  simpl. rewrite IH.
  - unfold write_file. destruct (String.eqb_spec p (path_join d (segment_filename c t s0)))
      as [E|E]; [|reflexivity].
    exfalso. apply (H O); [simpl; lia|]. rewrite Z.add_0_r. exact E.
  - intros i Hi. replace (s0 + 1 + Z.of_nat i) with (s0 + Z.of_nat (S i)) by lia.
    apply H. simpl. lia.
Qed.

Lemma save_from_nth (ft : Q -> option string) (title : string) (c t : Z) (d : string)
    (s0 : Z) (segs : list (list entry)) (f : fs) (i : nat) (seg : list entry) :
  0 <= s0 -> nth_error segs i = Some seg ->
  save_from ft title c t d s0 segs f (path_join d (segment_filename c t (s0 + Z.of_nat i))) =
  Some (render_segment ft title t (s0 + Z.of_nat i) seg).
Proof.
  revert s0 f i. induction segs as [|seg0 segs IH]; intros s0 f i Hs H;
    [destruct i; discriminate|].
  destruct i as [|i].
  - injection H as <-. cbn [save_from]. rewrite Z.add_0_r. rewrite save_from_other.
    + unfold write_file. rewrite String.eqb_refl. reflexivity.
    + intros j Hj E. apply segment_path_inj in E; lia.
  - cbn [save_from]. replace (s0 + Z.of_nat (S i)) with (s0 + 1 + Z.of_nat i) by lia.
    apply IH; [lia|exact H].
Qed.

Lemma ms_threshold_lt_bound : ms_threshold < float_overflow_bound.
Proof. apply Z.ltb_lt. vm_compute. reflexivity. Qed.

Lemma digit_not_space (c : ascii) : is_digit c = true -> is_space c = false.
Proof. destruct c as [[] [] [] [] [] [] [] []]; intros H; first [reflexivity|discriminate H]. Qed.

Lemma all_digits_forall (s : string) :
  all_digits s = true -> Forall (fun c => is_digit c = true) (list_ascii_of_string s).
Proof.
  induction s as [|c s IH]; simpl; intros H; [constructor|].
  apply andb_true_iff in H as [H1 H2]. constructor; [exact H1|exact (IH H2)].
Qed.

Lemma strip_leading_nospace (l : list ascii) :
  Forall (fun c => is_space c = false) l -> strip_leading l = l.
Proof. intros H. destruct H as [|c l Hc _]; [reflexivity|simpl; rewrite Hc; reflexivity]. Qed.

Lemma strip_nospace (l : list ascii) :
  Forall (fun c => is_space c = false) l -> strip l = l.
Proof.
  intros H. unfold strip. rewrite (strip_leading_nospace l H).
  rewrite strip_leading_nospace; [apply rev_involutive|].
  apply Forall_forall. intros c Hc. apply in_rev in Hc.
  rewrite Forall_forall in H. exact (H c Hc).
Qed.

Lemma digits_nonspace (s : string) :
  all_digits s = true -> Forall (fun c => is_space c = false) (list_ascii_of_string s).
Proof.
  intros H. eapply Forall_impl; [|exact (all_digits_forall s H)].
  intros c Hc. exact (digit_not_space c Hc).
Qed.


Lemma parse_digits (s : string) :
  all_digits s = true -> parse_number_string s = unsigned_value (list_ascii_of_string s).
Proof.
  intros H. unfold parse_number_string.
  rewrite strip_nospace by exact (digits_nonspace s H).
  pose proof (all_digits_forall s H) as Hd.
  destruct (list_ascii_of_string s) as [|c l]; [reflexivity|].
  apply Forall_inv in Hd.
  destruct c as [[] [] [] [] [] [] [] []]; first [reflexivity|discriminate Hd].
Qed.

Lemma parse_minus_digits (s : string) :
  all_digits s = true ->
  parse_number_string (String "-" s) = option_map Z.opp (unsigned_value (list_ascii_of_string s)).
Proof.
  intros H. unfold parse_number_string. cbn [list_ascii_of_string].
  rewrite strip_nospace
    by (constructor; [reflexivity|exact (digits_nonspace s H)]).
  reflexivity.
Qed.

Lemma uint_nonempty (p : positive) : string_of_uint (Pos.to_uint p) <> EmptyString.
Proof.
  intros E. pose proof (DecimalPos.Unsigned.of_to p) as H.
  destruct (Pos.to_uint p); try discriminate E. discriminate H.
Qed.

Lemma unsigned_value_nonempty (s : string) :
  s <> EmptyString ->
  unsigned_value (list_ascii_of_string s) = digits_value 0 (list_ascii_of_string s).
Proof. destruct s; [congruence|reflexivity]. Qed.

Lemma parse_string_of_Z (n : Z) : parse_number_string (string_of_Z n) = Some n.
Proof.
  destruct n as [|p|p]; [reflexivity| |].
  - change (string_of_Z (Z.pos p)) with (string_of_uint (Pos.to_uint p)).
    rewrite parse_digits by exact (uint_digits _).
    rewrite (unsigned_value_nonempty _ (uint_nonempty p)).
    rewrite uint_value, DecimalPos.Unsigned.of_to. reflexivity.
  - change (string_of_Z (Z.neg p)) with (String "-" (string_of_uint (Pos.to_uint p))).
    rewrite parse_minus_digits by exact (uint_digits _).
    rewrite (unsigned_value_nonempty _ (uint_nonempty p)).
    rewrite uint_value, DecimalPos.Unsigned.of_to. reflexivity.
Qed.
End OutputProofs.

Module OutputExtras.
Import Reconstructor Output OutputProofs ReconstructorExamples.
Local Open Scope string_scope.

(** [save_segments] writes segment [i] (counted from 0) to
    [os.path.join(out_dir, f"conv{conv_index:03d}_thread{thread_index:02d}_seg{i:02d}.md")],
    and after the call that file holds exactly the rendering of segment [i]:
    no later segment overwrites it. *)
Theorem save_segments_writes (ft : Q -> option string) (title : string)
    (conv_index thread_index : Z) (segments : list (list entry)) (out_dir : string)
    (f : fs) (i : nat) (seg : list entry) :
  nth_error segments i = Some seg ->
  save_segments ft title conv_index thread_index segments out_dir f
    (path_join out_dir (segment_filename conv_index thread_index (Z.of_nat i))) =
  Some (render_segment ft title thread_index (Z.of_nat i) seg).
Proof.
  intros H. exact (save_from_nth ft title conv_index thread_index out_dir 0 segments f i seg
                     (Z.le_refl 0) H).
Qed.

Lemma save_segments_writes_witness :
  nth_error [cycle_thread; cycle_thread] 1 = Some cycle_thread /\
  save_segments (fun _ => None) "T" 0 0 [cycle_thread; cycle_thread] "segments"
    (fun _ => None) (path_join "segments" (segment_filename 0 0 (Z.of_nat 1))) =
  Some (render_segment (fun _ => None) "T" 0 (Z.of_nat 1) cycle_thread).
Proof.
  split; [reflexivity|].
  exact (save_segments_writes (fun _ => None) "T" 0 0 [cycle_thread; cycle_thread]
           "segments" (fun _ => None) 1 cycle_thread eq_refl).
Defined.

(** Two different triples of non-negative indices (conversation, thread,
    segment) give different file names, so the files written by
    [process_file] never overwrite one another. *)
Theorem segment_filename_injective (c1 t1 s1 c2 t2 s2 : Z) :
  0 <= c1 -> 0 <= t1 -> 0 <= s1 -> 0 <= c2 -> 0 <= t2 -> 0 <= s2 ->
  segment_filename c1 t1 s1 = segment_filename c2 t2 s2 -> c1 = c2 /\ t1 = t2 /\ s1 = s2.
Proof. exact (segment_filename_inj c1 t1 s1 c2 t2 s2). Qed.

Lemma segment_filename_injective_witness :
  1 = 1 /\ 2 = 2 /\ 3 = 3.
Proof.
  exact (segment_filename_injective 1 2 3 1 2 3 ltac:(lia) ltac:(lia) ltac:(lia)
           ltac:(lia) ltac:(lia) ltac:(lia) eq_refl).
Defined.

(** [format_time] raises only when given an int too large for a float
    (at least [2^1024 - 2^970], hence above [1e12]): [ts / 1000.0] is
    outside the [try]. On [None], floats, strings and all other ints it
    returns a string. *)
Theorem format_time_raises (ft : Q -> option string) (ts : time_arg) (e : exn) :
  format_time ft ts = Raise e <->
  e = OverflowError /\ exists n, ts = TInt n /\ float_overflow_bound <= n.
Proof.
  pose proof ms_threshold_lt_bound as Hb. split.
  - destruct ts as [|n|q|s]; simpl; try discriminate.
    + destruct (negb (Z.eqb n 0) && Z.ltb ms_threshold n) eqn:E1; [|discriminate].
      destruct (Z.leb float_overflow_bound (Z.abs n)) eqn:E2; [|discriminate].
      intros H. injection H as <-. split; [reflexivity|]. exists n. split; [reflexivity|].
      apply andb_true_iff in E1 as [_ E1]. apply Z.ltb_lt in E1.
      apply Z.leb_le in E2. unfold ms_threshold in E1.
      rewrite Z.abs_eq in E2 by lia. exact E2.
    + destruct (parse_number_string s); discriminate.
  - intros [-> [n [-> Hn]]]. simpl. unfold ms_threshold in *.
    rewrite (proj2 (Z.ltb_lt (10 ^ 12) n)) by lia.
    replace (Z.eqb n 0) with false by (symmetry; apply Z.eqb_neq; lia).
    rewrite Z.abs_eq by lia. rewrite (proj2 (Z.leb_le _ _) Hn). reflexivity.
Qed.

(** A time given in milliseconds is formatted as the same time in seconds:
    for [10^9 < k <= 10^12], [format_time] of [1000 * k] (as an int or a
    float) equals [format_time] of [k], provided [fromtimestamp] depends
    only on the numeric value of its argument. *)
Theorem format_time_milliseconds (ft : Q -> option string)
    (Hft : forall q1 q2, Qeq q1 q2 -> ft q1 = ft q2) (k : Z) :
  10 ^ 9 < k <= 10 ^ 12 ->
  format_time ft (TInt (1000 * k)) = format_time ft (TInt k) /\
  format_time ft (TFloat (inject_Z (1000 * k))) = format_time ft (TFloat (inject_Z k)).
Proof.
  intros Hk.
  assert (Hb : 10 ^ 15 < float_overflow_bound) by (apply Z.ltb_lt; vm_compute; reflexivity).
  assert (Hq : Qeq (inject_Z (1000 * k) / inject_Z 1000) (inject_Z k)).
  { rewrite inject_Z_mult. field. }
  split.
  - unfold format_time, ms_threshold.
    replace (Z.eqb (1000 * k) 0) with false by (symmetry; apply Z.eqb_neq; lia).
    replace (Z.eqb k 0) with false by (symmetry; apply Z.eqb_neq; lia).
    rewrite (proj2 (Z.ltb_lt _ (1000 * k))) by lia.
    rewrite (proj2 (Z.ltb_ge _ k)) by lia.
    rewrite Z.abs_eq by lia. rewrite (proj2 (Z.leb_gt _ _)) by lia.
    unfold strftime_or_na. rewrite (Hft _ _ Hq). reflexivity.
  - unfold format_time, format_float, ms_threshold.
    replace (Qeq_bool (inject_Z (1000 * k)) 0) with false
      by (symmetry; apply not_true_iff_false; rewrite Qeq_bool_iff;
          change 0%Q with (inject_Z 0); rewrite inject_Z_injective; lia).
    replace (Qeq_bool (inject_Z k) 0) with false
      by (symmetry; apply not_true_iff_false; rewrite Qeq_bool_iff;
          change 0%Q with (inject_Z 0); rewrite inject_Z_injective; lia).
    replace (Qle_bool (inject_Z (1000 * k)) (inject_Z (10 ^ 12))) with false
      by (symmetry; apply not_true_iff_false; rewrite Qle_bool_iff, <- Zle_Qle; lia).
    replace (Qle_bool (inject_Z k) (inject_Z (10 ^ 12))) with true
      by (symmetry; rewrite Qle_bool_iff, <- Zle_Qle; lia).
    cbn [negb andb]. unfold strftime_or_na. rewrite (Hft _ _ Hq). reflexivity.
Qed.

Lemma format_time_milliseconds_witness :
  format_time (fun _ => Some "2023-11-14 22:13:20") (TInt (1000 * 1700000000)) =
  format_time (fun _ => Some "2023-11-14 22:13:20") (TInt 1700000000) /\
  format_time (fun _ => Some "2023-11-14 22:13:20") (TFloat (inject_Z (1000 * 1700000000))) =
  format_time (fun _ => Some "2023-11-14 22:13:20") (TFloat (inject_Z 1700000000)).
Proof.
  apply format_time_milliseconds; [intros q1 q2 _; reflexivity|].
  split; vm_compute; [reflexivity|discriminate].
Defined.

(** A string holding the decimal digits of an integer [n] (with a leading
    minus sign when negative) is converted by [float(ts)] and formatted
    exactly as the float [n] is, for [|n| < 2^53], where the conversion
    is exact. *)
Theorem format_time_numeric_string (ft : Q -> option string) (n : Z) :
  Z.abs n < 2 ^ 53 ->
  format_time ft (TStr (string_of_Z n)) = format_time ft (TFloat (inject_Z n)).
Proof.
  intros _. unfold format_time. rewrite parse_string_of_Z. reflexivity.
Qed.

Lemma format_time_numeric_string_witness :
  format_time (fun _ => Some "2023-11-14 22:13:20") (TStr (string_of_Z 1700000000)) =
  format_time (fun _ => Some "2023-11-14 22:13:20") (TFloat (inject_Z 1700000000)).
Proof.
  apply format_time_numeric_string. vm_compute. reflexivity.
Defined.

End OutputExtras.

(* ================================================================= *)
(** ** The segments of [split_segments] share the caller's dicts *)

Module SegmenterHeapMoreProofs.
Import Segmenter SegmenterHeap.

Lemma insert_ref_perm (x : loc * message) (l : list (loc * message)) :
  Permutation (insert_ref x l) (x :: l).
Proof.
  induction l as [|y l IH]; simpl; [reflexivity|].
  destruct (_ <=? _); [reflexivity|].
  exact (Permutation_trans (perm_skip y IH) (perm_swap x y l)).
Qed.

Lemma sort_refs_perm (l : list (loc * message)) : Permutation (sort_refs l) l.
Proof.
  induction l as [|x l IH]; simpl; [reflexivity|].
  exact (Permutation_trans (insert_ref_perm x _) (perm_skip x IH)).
Qed.

Lemma read_dicts_locs (s : store) (ls : list loc) (ms : list (loc * message)) :
  read_dicts s ls = Some ms -> map fst ms = ls.
Proof.
  revert ms. induction ls as [|l ls IH]; intros ms H; simpl in H.
  - injection H as <-. reflexivity.
  - destruct (read_dict s l), (read_dicts s ls) as [ms'|]; try discriminate.
    injection H as <-. simpl. f_equal. exact (IH ms' eq_refl).
Qed.

(** The lists at [segls] hold [lss] in the heap [s]. *)
Definition holds (s : store) (segls : list loc) (lss : list (list loc)) : Prop :=
  Forall2 (fun sl ls => heap s sl = Some (OList ls)) segls lss.

Lemma holds_frame (s s' : store) (segls : list loc) (lss : list (list loc)) :
  (forall sl, In sl segls -> heap s' sl = heap s sl) -> holds s segls lss -> holds s' segls lss.
Proof.
  intros H Hh. induction Hh as [|sl ls segls lss Hsl Hr IH]; constructor.
  - rewrite H by (left; reflexivity). exact Hsl.
  - apply IH. intros sl' Hin. apply H. right; exact Hin.
Qed.

Lemma holds_snoc (s : store) (segls : list loc) (lss : list (list loc)) (l : loc)
    (ls : list loc) :
  holds s segls lss -> heap s l = Some (OList ls) -> holds s (segls ++ [l]) (lss ++ [ls]).
Proof.
  intros H Hl. apply Forall2_app; [exact H|]. constructor; [exact Hl|constructor].
Qed.

Lemma write_other (s : store) (l l' : loc) (o : obj) :
  l' <> l -> heap (write s l o) l' = heap s l'.
Proof. intros H. simpl. destruct (Nat.eqb_spec l' l); [contradiction|reflexivity]. Qed.

Lemma alloc_other (s : store) (o : obj) (l' : loc) :
  (l' < next s)%nat -> heap (snd (alloc s o)) l' = heap s l'.
Proof. intros H. simpl. destruct (Nat.eqb_spec l' (next s)); [lia|reflexivity]. Qed.

(** The [zip] loop appends [current] and then [rest] to the segment
    lists, each a list of its own. *)
Lemma scan_heap_segments (gap : Z) (prev : loc) (rest : list loc) (current segments : loc)
    (s s' : store) (segls : list loc) (lss : list (list loc)) (cl : list loc) :
  heap s segments = Some (OList segls) -> heap s current = Some (OList cl) ->
  holds s segls lss -> segments <> current -> ~ In segments segls -> ~ In current segls ->
  (segments < next s)%nat -> (current < next s)%nat ->
  (forall sl, In sl segls -> (sl < next s)%nat) ->
  scan_heap gap prev rest current segments s = Some s' ->
  exists segls' lss', heap s' segments = Some (OList segls') /\ holds s' segls' lss' /\
    List.concat lss' = List.concat lss ++ cl ++ rest.
Proof.
  revert prev current s segls lss cl.
  induction rest as [|cur rest IH];
    intros prev current s segls lss cl Hs Hc Hh Hsc Hns Hnc Hsn Hcn Hln H; simpl in H.
  - rewrite Hc in H. destruct cl as [|x cl'].
    + injection H as <-. exists segls, lss. rewrite !app_nil_r.
      split; [exact Hs|split; [exact Hh|reflexivity]].
    + unfold append in H. rewrite Hs in H. injection H as <-.
      exists (segls ++ [current]), (lss ++ [x :: cl']). split; [|split].
      * simpl. rewrite Nat.eqb_refl. reflexivity.
      * apply holds_snoc; [|rewrite write_other by congruence; exact Hc].
        apply (holds_frame s); [|exact Hh].
        intros sl Hsl. apply write_other. intros ->. exact (Hns Hsl).
      * rewrite concat_app. simpl. rewrite !app_nil_r. reflexivity.
  - destruct (read_dict s prev), (read_dict s cur); try discriminate.
    destruct (boundary gap m m0).
    + unfold append in H. rewrite Hs in H.
      set (s1 := write s segments (OList (segls ++ [current]))) in H.
      match type of H with scan_heap _ _ _ ?c _ ?t = _ =>
        set (current' := c) in H; set (s2 := t) in H end.
      assert (Ec' : current' = next s) by reflexivity.
      assert (Hn2 : next s2 = S (next s)) by reflexivity.
      assert (Hold : forall l, (l < next s)%nat -> heap s2 l = heap s1 l).
      { intros l Hl. unfold s2. cbn [heap]. change (next s1) with (next s).
        destruct (Nat.eqb_spec l (next s)); [lia|reflexivity]. }
      destruct (IH cur current' s2 (segls ++ [current]) (lss ++ [cl]) [cur])
        as [segls' [lss' [H1 [H2 H3]]]]; try exact H.
      * rewrite Hold by exact Hsn. simpl. rewrite Nat.eqb_refl. reflexivity.
      * simpl. rewrite Nat.eqb_refl. reflexivity.
      * apply (holds_frame s1).
        { intros sl Hsl. apply Hold. apply in_app_or in Hsl as [Hsl|[<-|[]]];
            [exact (Hln sl Hsl)|exact Hcn]. }
        apply holds_snoc; [|unfold s1; rewrite write_other by congruence; exact Hc].
        apply (holds_frame s); [|exact Hh].
        intros sl Hsl. apply write_other. intros ->. exact (Hns Hsl).
      * lia.
      * intros Hin. apply in_app_or in Hin as [Hin|[Hin|[]]]; [exact (Hns Hin)|congruence].
      * intros Hin. apply in_app_or in Hin as [Hin|[Hin|[]]];
          [pose proof (Hln _ Hin); lia|lia].
      * rewrite Hn2. lia.
      * rewrite Hn2. lia.
      * intros sl Hsl. rewrite Hn2. apply in_app_or in Hsl as [Hsl|[<-|[]]];
          [pose proof (Hln _ Hsl); lia|lia].
      * exists segls', lss'. split; [exact H1|split; [exact H2|]].
        rewrite H3, concat_app. simpl. rewrite app_nil_r, <- app_assoc. reflexivity.
    + unfold append in H. rewrite Hc in H.
      destruct (IH cur current (write s current (OList (cl ++ [cur]))) segls lss (cl ++ [cur]))
        as [segls' [lss' [H1 [H2 H3]]]]; try exact H.
      * rewrite write_other by exact Hsc. exact Hs.
      * simpl. rewrite Nat.eqb_refl. reflexivity.
      * apply (holds_frame s); [|exact Hh].
        intros sl Hsl. apply write_other. intros ->. exact (Hnc Hsl).
      * exact Hsc.
      * exact Hns.
      * exact Hnc.
      * exact Hsn.
      * exact Hcn.
      * exact Hln.
      * exists segls', lss'. split; [exact H1|split; [exact H2|]].
        rewrite H3, <- app_assoc. reflexivity.
Qed.

End SegmenterHeapMoreProofs.

Module SegmenterHeapExtras.
Import Segmenter SegmenterHeap SegmenterHeapMoreProofs SegmenterHeapExamples.

(** The segment lists returned by [split_segments] hold references to the
    caller's own message dicts, not copies: together they hold exactly the
    references of the caller's list, each once. *)
Theorem split_segments_shares_dicts (gap : Z) (lst : loc) (s : store) (xs : list loc)
    (r : loc) (s' : store) :
  heap s lst = Some (OList xs) -> split_segments_heap gap lst s = Some (r, s') ->
  exists segls lss, heap s' r = Some (OList segls) /\ holds s' segls lss /\
    Permutation (List.concat lss) xs.
Proof.
  intros Hl H. unfold split_segments_heap in H. rewrite Hl in H.
  destruct xs as [|x xs'].
  - injection H as <- <-. exists [], []. split; [|split; [constructor|reflexivity]].
    simpl. rewrite Nat.eqb_refl. reflexivity.
  - destruct (read_dicts s (x :: xs')) as [ms|] eqn:Er; [|discriminate].
    cbn zeta in H.
    destruct (map fst (sort_refs ms)) as [|l0 rest] eqn:Es; [discriminate|].
    cbn [alloc fst snd] in H.
    match type of H with context [scan_heap gap l0 rest ?c ?g ?t] =>
      set (s3 := t) in H; set (current := c) in H; set (segs := g) in H end.
    destruct (scan_heap gap l0 rest current segs s3) as [s4|] eqn:Esc; [|discriminate].
    injection H as <- <-.
    destruct (scan_heap_segments gap l0 rest current segs s3 s4 [] [] [l0])
      as [segls [lss [H1 [H2 H3]]]]; try exact Esc.
    + simpl. repeat match goal with |- context [Nat.eqb ?a ?b] =>
        destruct (Nat.eqb_spec a b); try lia end. reflexivity.
    + simpl. rewrite Nat.eqb_refl. reflexivity.
    + constructor.
    + unfold current, segs; simpl; lia.
    + intros [].
    + intros [].
    + unfold current, segs, s3; simpl; lia.
    + unfold current, segs, s3; simpl; lia.
    + intros _ [].
    + exists segls, lss. split; [exact H1|split; [exact H2|]].
      rewrite H3. simpl. rewrite <- Es.
      rewrite <- (read_dicts_locs s (x :: xs') ms Er).
      apply Permutation_map, sort_refs_perm.
Qed.

Lemma split_segments_shares_dicts_witness :
  heap ex_store 0%nat = Some (OList [2; 1]%nat) /\
  match split_segments_heap GAP_SECONDS 0%nat ex_store with
  | Some (r, s') =>
      exists segls lss, heap s' r = Some (OList segls) /\ holds s' segls lss /\
        Permutation (List.concat lss) [2; 1]%nat
  | None => False
  end.
Proof.
  split; [reflexivity|].
  destruct (split_segments_heap GAP_SECONDS 0%nat ex_store) as [[r s']|] eqn:E.
  - exact (split_segments_shares_dicts GAP_SECONDS 0%nat ex_store [2; 1]%nat r s' eq_refl E).
  - vm_compute in E. discriminate.
Defined.

End SegmenterHeapExtras.
